(** * Transformer: the geometry engine of the interactive transform gizmo

    A shallow embedding of [packages/transformer/src/Transformer.ts].

    JavaScript numbers are idealised as real numbers: every arithmetic
    operation of the source is the corresponding operation on [R], and the
    rounding, the infinities and NaN of IEEE-754 doubles are not modelled.
    The mutable [Transformer] instance becomes a record that every gesture
    handler takes and returns. *)

From Stdlib Require Import Reals Lra List Bool Arith ZArith Lia.
Import ListNotations.
Open Scope R_scope.

Set Implicit Arguments.

(** ** JavaScript numeric primitives *)

Module JS.

(** Rounding toward zero, the quotient that [%] works with. *)
Definition trunc (x : R) : R :=
  if Rle_dec 0 x then IZR (Int_part x) else - IZR (Int_part (- x)).

(** The remainder operator [a % m]: the result takes the sign of the
    dividend [a]. *)
Definition rem (a m : R) : R := a - m * trunc (a / m).

(** [Number.MAX_VALUE], the largest finite double. *)
Definition MAX_VALUE : R := (2 - / 2 ^ 52) * 2 ^ 1023.

(** [Math.atan2(y, x)] on finite arguments. *)
Definition atan2 (y x : R) : R :=
  if Rlt_dec 0 x then atan (y / x)
  else if Rlt_dec x 0 then
    (if Rle_dec 0 y then atan (y / x) + PI else atan (y / x) - PI)
  else if Rlt_dec 0 y then PI / 2
  else if Rlt_dec y 0 then - (PI / 2)
  else 0.

(** [!x] for a number [x]: zero is the falsy real. *)
Definition falsy (x : R) : bool := if Req_dec_T x 0 then true else false.

(** [x <= y] as a JavaScript boolean. *)
Definition leb (x y : R) : bool := if Rle_dec x y then true else false.

(** [x < y] as a JavaScript boolean. *)
Definition ltb (x y : R) : bool := if Rlt_dec x y then true else false.

End JS.

(** ** Points, rectangles and matrices ([@pixi/math]) *)

Record Point := mkPoint { px : R; py : R }.

Record Rectangle := mkRect { rx : R; ry : R; rwidth : R; rheight : R }.

(** The affine matrix
<<
      | a  c  tx |
      | b  d  ty |
      | 0  0  1  |
>>
    The methods below follow [@pixi/math]'s [Matrix]; each mutating method
    of the library returns the updated matrix here. *)
Record Matrix := mkMatrix { ma : R; mb : R; mc : R; md : R; mtx : R; mty : R }.

Module Mat.

Definition identity : Matrix := mkMatrix 1 0 0 1 0 0.

Definition translate (m : Matrix) (x y : R) : Matrix :=
  mkMatrix (ma m) (mb m) (mc m) (md m) (mtx m + x) (mty m + y).

Definition scale (m : Matrix) (x y : R) : Matrix :=
  mkMatrix (ma m * x) (mb m * y) (mc m * x) (md m * y) (mtx m * x) (mty m * y).

Definition rotate (m : Matrix) (angle : R) : Matrix :=
  let c := cos angle in
  let s := sin angle in
  mkMatrix (ma m * c - mb m * s) (ma m * s + mb m * c)
           (mc m * c - md m * s) (mc m * s + md m * c)
           (mtx m * c - mty m * s) (mtx m * s + mty m * c).

(** [m.prepend(n)]: [n] is applied after [m]. *)
Definition prepend (m n : Matrix) : Matrix :=
  mkMatrix (ma m * ma n + mb m * mc n) (ma m * mb n + mb m * md n)
           (mc m * ma n + md m * mc n) (mc m * mb n + md m * md n)
           (mtx m * ma n + mty m * mc n + mtx n)
           (mtx m * mb n + mty m * md n + mty n).

Definition apply (m : Matrix) (p : Point) : Point :=
  mkPoint (ma m * px p + mc m * py p + mtx m)
          (mb m * px p + md m * py p + mty m).

Definition applyInverse (m : Matrix) (p : Point) : Point :=
  let id := 1 / (ma m * md m + mc m * - mb m) in
  mkPoint (md m * id * px p + - mc m * id * py p
           + (mty m * mc m - mtx m * md m) * id)
          (ma m * id * py p + - mb m * id * px p
           + (- mty m * ma m + mtx m * mb m) * id).

End Mat.

(** ** The angle snapper *)

(** The [for] loop of [snapAngle]: the first entry within the tolerance. *)
Fixpoint snapScan (angle snapTolerance : R) (snaps : list R) : option R :=
  match snaps with
  | [] => None
  | s :: rest =>
      if JS.leb (Rabs (angle - s)) snapTolerance then Some s
      else snapScan angle snapTolerance rest
  end.

(** [Transformer.snapAngle]; [snaps] is optional in the source. *)
Definition snapAngle (angle snapTolerance : R) (snaps : option (list R)) : R :=
  let angle := JS.rem angle (PI * 2) in
  match snaps with
  | None => angle
  | Some l =>
      if (length l =? 1)%nat || JS.falsy snapTolerance then angle
      else match snapScan angle snapTolerance l with
           | Some s => s
           | None => angle
           end
  end.

(** ** Oriented bounds ([@pixi-essentials/bounds]) *)

(** Modelled from the spec: the [OrientedBounds] class lives in the sibling
    package [@pixi-essentials/bounds].  It stores an axis-aligned rectangle
    [innerBounds] and a [rotation]; the centre and the four corners are
    derived from these two fields on every read, by rotating the
    rectangle's corners through [rotation] about the rectangle's centre.
    Writing the centre moves [innerBounds] and keeps its size. *)
Record OrientedBounds := mkOB { innerBounds : Rectangle; rotation : R }.

Module OB.

Definition center (b : OrientedBounds) : Point :=
  let r := innerBounds b in
  mkPoint (rx r + rwidth r / 2) (ry r + rheight r / 2).

(** The orientation matrix: a rotation by [rotation] about the centre. *)
Definition matrix (b : OrientedBounds) : Matrix :=
  let c := center b in
  Mat.translate
    (Mat.rotate (Mat.translate Mat.identity (- px c) (- py c)) (rotation b))
    (px c) (py c).

Definition topLeft (b : OrientedBounds) : Point :=
  let r := innerBounds b in
  Mat.apply (matrix b) (mkPoint (rx r) (ry r)).

Definition topRight (b : OrientedBounds) : Point :=
  let r := innerBounds b in
  Mat.apply (matrix b) (mkPoint (rx r + rwidth r) (ry r)).

Definition bottomLeft (b : OrientedBounds) : Point :=
  let r := innerBounds b in
  Mat.apply (matrix b) (mkPoint (rx r) (ry r + rheight r)).

Definition bottomRight (b : OrientedBounds) : Point :=
  let r := innerBounds b in
  Mat.apply (matrix b) (mkPoint (rx r + rwidth r) (ry r + rheight r)).

(** [bounds.center.copyFrom(p)]. *)
Definition set_center (b : OrientedBounds) (p : Point) : OrientedBounds :=
  let r := innerBounds b in
  mkOB (mkRect (px p - rwidth r / 2) (py p - rheight r / 2)
               (rwidth r) (rheight r))
       (rotation b).

Definition set_rotation (b : OrientedBounds) (angle : R) : OrientedBounds :=
  mkOB (innerBounds b) angle.

End OB.

(** ** Group members *)

(** A display object of the host scene graph, as far as the geometry engine
    reads it: its world transform and its local bounds. *)
Record DisplayObject := mkDO { worldTransform : Matrix; localBounds : Rectangle }.

(** Modelled from the spec: [multiplyTransform] lives in
    [utils/multiplyTransform], outside this file.  It applies the matrix
    [delta] in world space, left-multiplied onto the member's existing
    transform. *)
Definition multiplyTransform (displayObject : DisplayObject) (delta : Matrix)
  : DisplayObject :=
  mkDO (Mat.prepend (worldTransform displayObject) delta)
       (localBounds displayObject).

(** ** Handles *)

Inductive RotateHandle := rotator.

Inductive ScaleHandle :=
| topLeft | topCenter | topRight
| middleLeft | middleCenter | middleRight
| bottomLeft | bottomCenter | bottomRight.

Inductive SkewHandle := skewHorizontal | skewVertical.

Inductive Handle :=
| HRotate (h : RotateHandle)
| HScale (h : ScaleHandle)
| HSkew (h : SkewHandle).

(** The outward direction of each scale handle, as [(x, y)]. *)
Definition SCALE_COMPONENTS (h : ScaleHandle) : Z * Z :=
  match h with
  | topLeft => (-1, -1)
  | topCenter => (0, -1)
  | topRight => (1, -1)
  | middleLeft => (-1, 0)
  | middleCenter => (0, 0)
  | middleRight => (1, 0)
  | bottomLeft => (-1, 1)
  | bottomCenter => (0, 1)
  | bottomRight => (1, 1)
  end%Z.

(** ** The transformer *)

Record Transformer := mkTransformer {
  group : list DisplayObject;
  centeredScaling : bool;
  rotationSnaps : list R;
  rotationSnapTolerance : R;
  skewSnaps : list R;
  skewSnapTolerance : R;
  transientGroupTilt : bool;
  groupBounds : OrientedBounds;
  handles : Handle -> Point;
  _skewX : R;
  _skewY : R
}.

Definition with_group (t : Transformer) (g : list DisplayObject) : Transformer :=
  mkTransformer g (centeredScaling t) (rotationSnaps t)
    (rotationSnapTolerance t) (skewSnaps t) (skewSnapTolerance t)
    (transientGroupTilt t) (groupBounds t) (handles t) (_skewX t) (_skewY t).

Definition with_groupBounds (t : Transformer) (b : OrientedBounds) : Transformer :=
  mkTransformer (group t) (centeredScaling t) (rotationSnaps t)
    (rotationSnapTolerance t) (skewSnaps t) (skewSnapTolerance t)
    (transientGroupTilt t) b (handles t) (_skewX t) (_skewY t).

Definition with_skew (t : Transformer) (sx sy : R) : Transformer :=
  mkTransformer (group t) (centeredScaling t) (rotationSnaps t)
    (rotationSnapTolerance t) (skewSnaps t) (skewSnapTolerance t)
    (transientGroupTilt t) (groupBounds t) (handles t) sx sy.

(** ** Oriented bounds of a group *)

(** [Transformer.calculateTransformedCorners]: the four corners of the
    local bounds, in the order top-left, top-right, bottom-right,
    bottom-left, mapped through [transform]. *)
Definition calculateTransformedCorners (displayObject : DisplayObject)
    (transform : Matrix) : list Point :=
  let lb := localBounds displayObject in
  [ Mat.apply transform (mkPoint (rx lb) (ry lb));
    Mat.apply transform (mkPoint (rx lb + rwidth lb) (ry lb));
    Mat.apply transform (mkPoint (rx lb + rwidth lb) (ry lb + rheight lb));
    Mat.apply transform (mkPoint (rx lb) (ry lb + rheight lb)) ].

(** The running extremes [(minX, minY, maxX, maxY)] of the scan. *)
Record Extremes := mkExt { minX : R; minY : R; maxX : R; maxY : R }.

(** One iteration of the scan over the frame vertices. *)
Definition scanVertex (matrix : Matrix) (e : Extremes) (point : Point) : Extremes :=
  let point := Mat.apply matrix point in
  let x := px point in
  let y := py point in
  mkExt (if JS.ltb x (minX e) then x else minX e)
        (if JS.ltb y (minY e) then y else minY e)
        (if JS.ltb (maxX e) x then x else maxX e)
        (if JS.ltb (maxY e) y then y else maxY e).

(** [Transformer.calculateGroupOrientedBounds(group, rotation, bounds)].
    Every field of the optional [bounds] argument is overwritten, so the
    result does not depend on it; the world transforms of the model are
    always current, which covers both values of [skipUpdate].  On an empty
    group the extremes keep their sentinels, and their difference,
    [-MAX_VALUE - MAX_VALUE] here, is beyond the range of doubles: the
    program gets [-Infinity] for the size and [NaN] for the centre, so
    for the empty group only the rotation and the sign of the size carry
    over to the program. *)
Definition calculateGroupOrientedBounds (group : list DisplayObject)
    (rotation : R) : OrientedBounds :=
  let frames :=
    flat_map (fun o => calculateTransformedCorners o (worldTransform o)) group in
  let matrix := Mat.rotate Mat.identity (- rotation) in
  let e :=
    fold_left (scanVertex matrix) frames
      (mkExt JS.MAX_VALUE JS.MAX_VALUE (- JS.MAX_VALUE) (- JS.MAX_VALUE)) in
  let bounds :=
    mkOB (mkRect (minX e) (minY e) (maxX e - minX e) (maxY e - minY e))
         rotation in
  let tempPoint := Mat.applyInverse matrix (OB.center bounds) in
  OB.set_center bounds tempPoint.

(** ** Gestures *)

(** [updateGroupBounds(rotation)]. *)
Definition updateGroupBounds (t : Transformer) (rotation : R) : Transformer :=
  with_groupBounds t (calculateGroupOrientedBounds (group t) rotation).

(** [prependTransform(delta, skipUpdate)]. *)
Definition prependTransform (t : Transformer) (delta : Matrix)
    (skipUpdate : bool) : Transformer :=
  let t := with_group t (map (fun o => multiplyTransform o delta) (group t)) in
  if skipUpdate then t else updateGroupBounds t (rotation (groupBounds t)).

(** [translateGroup(delta)]. *)
Definition translateGroup (t : Transformer) (delta : Point) : Transformer :=
  prependTransform t (Mat.translate Mat.identity (px delta) (py delta)) false.

(** The angle by which [rotateGroup] turns the group, after snapping. *)
Definition rotateGroup_newRotation (t : Transformer) (handle : RotateHandle)
    (pointerPosition : Point) : R :=
  let bounds := groupBounds t in
  let origin := handles t (HRotate handle) in
  let destination := pointerPosition in
  let rOrigin := OB.center bounds in
  let orgAngle := JS.atan2 (py origin - py rOrigin) (px origin - px rOrigin) in
  let dstAngle :=
    JS.atan2 (py destination - py rOrigin) (px destination - px rOrigin) in
  let deltaAngle := dstAngle - orgAngle in
  let newRotation := rotation (groupBounds t) + deltaAngle in
  snapAngle newRotation (rotationSnapTolerance t) (Some (rotationSnaps t)).

(** [rotateGroup(handle, pointerPosition)]. *)
Definition rotateGroup (t : Transformer) (handle : RotateHandle)
    (pointerPosition : Point) : Transformer :=
  let rOrigin := OB.center (groupBounds t) in
  let newRotation := rotateGroup_newRotation t handle pointerPosition in
  let deltaAngle := newRotation - rotation (groupBounds t) in
  let matrix :=
    Mat.translate
      (Mat.rotate (Mat.translate Mat.identity (- px rOrigin) (- py rOrigin))
                  deltaAngle)
      (px rOrigin) (py rOrigin) in
  let t := prependTransform t matrix true in
  let t := updateGroupBounds t newRotation in
  with_skew t (_skewX t + deltaAngle) (_skewY t + deltaAngle).

(** The matrix that [scaleGroup] has built when it calls
    [prependTransform]. *)
Definition scaleGroup_matrix (t : Transformer) (handle : ScaleHandle)
    (pointerPosition : Point) : Matrix :=
  let xDir := fst (SCALE_COMPONENTS handle) in
  let yDir := snd (SCALE_COMPONENTS handle) in
  let bounds := groupBounds t in
  let angle := rotation bounds in
  let innerBounds := innerBounds bounds in
  let dx := px pointerPosition - px (handles t (HScale handle)) in
  let dy := py pointerPosition - py (handles t (HScale handle)) in
  let uxvec := (px (OB.topRight bounds) - px (OB.topLeft bounds)) / rwidth innerBounds in
  let uyvec := (py (OB.topRight bounds) - py (OB.topLeft bounds)) / rwidth innerBounds in
  let vxvec := (px (OB.bottomLeft bounds) - px (OB.topLeft bounds)) / rheight innerBounds in
  let vyvec := (py (OB.bottomLeft bounds) - py (OB.topLeft bounds)) / rheight innerBounds in
  let du := dx * uxvec + dy * uyvec in
  let dv := dx * vxvec + dy * vyvec in
  let sx := 1 + du * IZR xDir / rwidth innerBounds in
  let sy := 1 + dv * IZR yDir / rheight innerBounds in
  let matrix := Mat.identity in
  let matrix :=
    if (xDir =? 0)%Z then matrix
    else
      let hsOrigin :=
        if negb (centeredScaling t)
        then (if (xDir =? 1)%Z then OB.topLeft bounds else OB.topRight bounds)
        else OB.center bounds in
      Mat.translate
        (Mat.rotate
           (Mat.scale
              (Mat.rotate
                 (Mat.translate matrix (- px hsOrigin) (- py hsOrigin))
                 (- angle))
              sx 1)
           angle)
        (px hsOrigin) (py hsOrigin) in
  let matrix :=
    if (yDir =? 0)%Z then matrix
    else
      let vsOrigin :=
        if negb (centeredScaling t)
        then (if (yDir =? 1)%Z then OB.topLeft bounds else OB.bottomLeft bounds)
        else OB.center bounds in
      Mat.translate
        (Mat.rotate
           (Mat.scale
              (Mat.rotate
                 (Mat.translate matrix (- px vsOrigin) (- py vsOrigin))
                 (- angle))
              1 sy)
           angle)
        (px vsOrigin) (py vsOrigin) in
  matrix.

(** [scaleGroup(handle, pointerPosition)]. *)
Definition scaleGroup (t : Transformer) (handle : ScaleHandle)
    (pointerPosition : Point) : Transformer :=
  prependTransform t (scaleGroup_matrix t handle pointerPosition) false.

Section Skew.

(** [createHorizontalSkew] and [createVerticalSkew] come from
    [utils/skewTransform], outside this file: each maps an angle to a
    shear matrix. *)
Variable createHorizontalSkew : R -> Matrix.
Variable createVerticalSkew : R -> Matrix.

(** The skew state, the matrix and the bounds rotation that [skewGroup]
    has computed when it calls [prependTransform]. *)
Record SkewStep := mkSkewStep {
  step_skewX : R;
  step_skewY : R;
  step_matrix : Matrix;
  step_rotation : R
}.

Definition skewGroup_step (t : Transformer) (handle : SkewHandle)
    (pointerPosition : Point) : SkewStep :=
  let bounds := groupBounds t in
  let dst := pointerPosition in
  let sOrigin := OB.center bounds in
  let matrix := Mat.translate Mat.identity (- px sOrigin) (- py sOrigin) in
  let rotation := rotation (groupBounds t) in
  match handle with
  | skewHorizontal =>
      let oldSkew := _skewX t in
      let skewX := JS.atan2 (py dst - py sOrigin) (px dst - px sOrigin) in
      let skewX := snapAngle skewX (skewSnapTolerance t) (Some (skewSnaps t)) in
      let matrix := Mat.prepend matrix (createVerticalSkew (- oldSkew)) in
      let matrix := Mat.prepend matrix (createVerticalSkew skewX) in
      let matrix := Mat.translate matrix (px sOrigin) (py sOrigin) in
      mkSkewStep skewX (_skewY t) matrix rotation
  | skewVertical =>
      let oldSkew := _skewY t in
      let newSkew :=
        JS.atan2 (py dst - py sOrigin) (px dst - px sOrigin) - PI / 2 in
      let skewY := newSkew in
      let skewY := snapAngle skewY (skewSnapTolerance t) (Some (skewSnaps t)) in
      let matrix := Mat.prepend matrix (createHorizontalSkew oldSkew) in
      let matrix := Mat.prepend matrix (createHorizontalSkew (- skewY)) in
      let rotation := rotation - (skewY - oldSkew) in
      let matrix := Mat.translate matrix (px sOrigin) (py sOrigin) in
      mkSkewStep (_skewX t) skewY matrix rotation
  end.

(** [skewGroup(handle, pointerPosition)]. *)
Definition skewGroup (t : Transformer) (handle : SkewHandle)
    (pointerPosition : Point) : Transformer :=
  let s := skewGroup_step t handle pointerPosition in
  let t := with_skew t (step_skewX s) (step_skewY s) in
  let t := prependTransform t (step_matrix s) true in
  updateGroupBounds t (step_rotation s).

End Skew.

(** [commitGroup()]. *)
Definition commitGroup (t : Transformer) : Transformer :=
  if transientGroupTilt t && (1 <? length (group t))%nat
  then updateGroupBounds t 0
  else t.

(** The corners of the bounds that lie on the corner or edge opposite a
    scale handle: the anchor points of a scale gesture that is not
    centred.  This follows the words of the specification; the source has
    no such table. *)
Definition opposite_anchors (handle : ScaleHandle) (b : OrientedBounds)
  : list Point :=
  match handle with
  | topLeft => [OB.bottomRight b]
  | topCenter => [OB.bottomLeft b; OB.bottomRight b]
  | topRight => [OB.bottomLeft b]
  | middleLeft => [OB.topRight b; OB.bottomRight b]
  | middleCenter => []
  | middleRight => [OB.topLeft b; OB.bottomLeft b]
  | bottomLeft => [OB.topRight b]
  | bottomCenter => [OB.topLeft b; OB.topRight b]
  | bottomRight => [OB.topLeft b]
  end.

(** ** Defaults *)

Definition DEFAULT_ROTATION_SNAPS : list R :=
  [ PI / 4; PI / 2; PI * 3 / 4; PI;
    - PI / 4; - PI / 2; - PI * 3 / 4; - PI ].

Definition DEFAULT_ROTATION_SNAP_TOLERANCE : R := PI / 90.

Definition DEFAULT_SKEW_SNAPS : list R := [ PI / 4; - PI / 4 ].

Definition DEFAULT_SKEW_SNAP_TOLERANCE : R := PI / 90.

(** ** An example scene *)

(** A single unrotated 100 x 50 rectangle at the origin. *)
Definition rectangle_100_50 : DisplayObject :=
  mkDO Mat.identity (mkRect 0 0 100 50).

(** A transformer, with the default options, around that rectangle; the
    positions of the handles are left open. *)
Definition single_rectangle (positions : Handle -> Point) : Transformer :=
  mkTransformer [rectangle_100_50] false
    DEFAULT_ROTATION_SNAPS DEFAULT_ROTATION_SNAP_TOLERANCE
    DEFAULT_SKEW_SNAPS DEFAULT_SKEW_SNAP_TOLERANCE
    true (mkOB (mkRect 0 0 100 50) 0) positions 0 0.

(** The positions that [drawHandles] gives to the scale handles. *)
Definition drawHandles_scale (groupBounds : OrientedBounds) (h : ScaleHandle)
  : Point :=
  let topLeft := OB.topLeft groupBounds in
  let topRight := OB.topRight groupBounds in
  let bottomLeft := OB.bottomLeft groupBounds in
  let bottomRight := OB.bottomRight groupBounds in
  match h with
  | topLeft => topLeft
  | topCenter =>
      mkPoint ((px topLeft + px topRight) / 2) ((py topLeft + py topRight) / 2)
  | topRight => topRight
  | middleLeft =>
      mkPoint ((px topLeft + px bottomLeft) / 2) ((py topLeft + py bottomLeft) / 2)
  | middleCenter =>
      mkPoint ((px topLeft + px bottomRight) / 2) ((py topLeft + py bottomRight) / 2)
  | middleRight =>
      mkPoint ((px topRight + px bottomRight) / 2) ((py topRight + py bottomRight) / 2)
  | bottomLeft => bottomLeft
  | bottomCenter =>
      mkPoint ((px bottomLeft + px bottomRight) / 2)
              ((py bottomLeft + py bottomRight) / 2)
  | bottomRight => bottomRight
  end.

(** The example scene once its scale handles are drawn; the rotator and
    the skew handles, which no scale gesture reads, sit at the centre. *)
Definition drawn_rectangle : Transformer :=
  let b := mkOB (mkRect 0 0 100 50) 0 in
  single_rectangle
    (fun h => match h with
              | HScale s => drawHandles_scale b s
              | _ => OB.center b
              end).

(** ** Coordinates in a rotated frame *)

(** The point with coordinates [(u, v)] in the frame with origin [o]
    whose axes are the world axes turned by [angle]: a helper for
    statements about oriented bounds, not a function of the source. *)
Definition frame_point (o : Point) (angle u v : R) : Point :=
  mkPoint (px o + (u * cos angle - v * sin angle))
          (py o + (u * sin angle + v * cos angle)).

(** The drawn example scene with [centeredScaling] switched on. *)
Definition drawn_rectangle_centred : Transformer :=
  mkTransformer (group drawn_rectangle) true
    (rotationSnaps drawn_rectangle) (rotationSnapTolerance drawn_rectangle)
    (skewSnaps drawn_rectangle) (skewSnapTolerance drawn_rectangle)
    (transientGroupTilt drawn_rectangle) (groupBounds drawn_rectangle)
    (handles drawn_rectangle) (_skewX drawn_rectangle) (_skewY drawn_rectangle).

(** The example scene with both snap tolerances at zero, the rotator drawn
    32 units above the top edge and the skew handles at the default
    radius of 64. *)
Definition unsnapped_rectangle : Transformer :=
  let b := mkOB (mkRect 0 0 100 50) 0 in
  mkTransformer [rectangle_100_50] false
    DEFAULT_ROTATION_SNAPS 0 DEFAULT_SKEW_SNAPS 0
    true b
    (fun h => match h with
              | HRotate _ => mkPoint 50 (- 32)
              | HScale s => drawHandles_scale b s
              | HSkew skewHorizontal => mkPoint 114 25
              | HSkew skewVertical => mkPoint 50 89
              end)
    0 0.

(** ** Oriented bounds of one object *)

(** [Math.min] and [Math.max] of four numbers. *)
Definition Math_min4 (a b c d : R) : R := Rmin (Rmin (Rmin a b) c) d.

Definition Math_max4 (a b c d : R) : R := Rmax (Rmax (Rmax a b) c) d.

Section OrientedBoundsOfOne.

(** [decomposeTransform] lives in [utils/decomposeTransform], outside this
    file; [decomposeRotation m] stands for the [rotation] that it stores
    in the scratch transform when it decomposes the matrix [m]. *)
Variable decomposeRotation : Matrix -> R.

(** [Transformer.calculateOrientedBounds(displayObject, bounds)]; as for
    the group, every field of [bounds] is overwritten. *)
Definition calculateOrientedBounds (displayObject : DisplayObject)
  : OrientedBounds :=
  let angle := decomposeRotation (worldTransform displayObject) in
  let corners :=
    calculateTransformedCorners displayObject (worldTransform displayObject) in
  let corner i := nth i corners (mkPoint 0 0) in
  let cx :=
    (px (corner 0%nat) + px (corner 1%nat) + px (corner 2%nat)
     + px (corner 3%nat)) / 4 in
  let cy :=
    (py (corner 0%nat) + py (corner 1%nat) + py (corner 2%nat)
     + py (corner 3%nat)) / 4 in
  let matrix :=
    Mat.translate
      (Mat.rotate (Mat.translate Mat.identity (- cx) (- cy)) (- angle))
      cx cy in
  let unrotated i := Mat.apply matrix (corner i) in
  let x :=
    Math_min4 (px (unrotated 0%nat)) (px (unrotated 1%nat))
      (px (unrotated 2%nat)) (px (unrotated 3%nat)) in
  let y :=
    Math_min4 (py (unrotated 0%nat)) (py (unrotated 1%nat))
      (py (unrotated 2%nat)) (py (unrotated 3%nat)) in
  mkOB
    (mkRect x y
       (Math_max4 (px (unrotated 0%nat)) (px (unrotated 1%nat))
          (px (unrotated 2%nat)) (px (unrotated 3%nat)) - x)
       (Math_max4 (py (unrotated 0%nat)) (py (unrotated 1%nat))
          (py (unrotated 2%nat)) (py (unrotated 3%nat)) - y))
    angle.

End OrientedBoundsOfOne.

(** The positions that [drawHandles] gives to the skew handles. *)
Definition drawHandles_skew (groupBounds : OrientedBounds)
    (skewX skewY skewRadius : R) (h : SkewHandle) : Point :=
  let center := OB.center groupBounds in
  match h with
  | skewHorizontal =>
      mkPoint (px center + cos skewX * skewRadius)
              (py center + sin skewX * skewRadius)
  | skewVertical =>
      mkPoint (px center + - sin skewY * skewRadius)
              (py center + cos skewY * skewRadius)
  end.

(** ** The rest of the transformer's state *)

Definition Handle_eq_dec (a b : Handle) : {a = b} + {a <> b}.
Proof. decide equality; decide equality. Defined.

Definition SCALE_HANDLES : list ScaleHandle :=
  [ topLeft; topCenter; topRight;
    middleLeft; middleCenter; middleRight;
    bottomLeft; bottomCenter; bottomRight ].

Definition HANDLES : list Handle :=
  map HScale SCALE_HANDLES
  ++ [ HRotate rotator; HSkew skewHorizontal; HSkew skewVertical ].

(** The fields of a [Transformer] instance that the gestures do not read:
    the toggles, the visibility of each handle and the state of the drag
    on the transformer itself. *)
Record View := mkView {
  transformer : Transformer;
  translateEnabled : bool;
  skewRadius : R;
  _enabledHandles : option (list Handle);
  _rotateEnabled : bool;
  _scaleEnabled : bool;
  _skewEnabled : bool;
  visible : Handle -> bool;
  _pointerDown : bool;
  _pointerDragging : bool;
  _pointerPosition : Point
}.

Definition with_transformer (v : View) (t : Transformer) : View :=
  mkView t (translateEnabled v) (skewRadius v) (_enabledHandles v)
    (_rotateEnabled v) (_scaleEnabled v) (_skewEnabled v) (visible v)
    (_pointerDown v) (_pointerDragging v) (_pointerPosition v).

Definition with_enabledHandles (v : View) (value : option (list Handle))
    (vis : Handle -> bool) : View :=
  mkView (transformer v) (translateEnabled v) (skewRadius v) value
    (_rotateEnabled v) (_scaleEnabled v) (_skewEnabled v) vis
    (_pointerDown v) (_pointerDragging v) (_pointerPosition v).

Definition with_toggles (v : View) (r s k : bool) (vis : Handle -> bool) : View :=
  mkView (transformer v) (translateEnabled v) (skewRadius v) (_enabledHandles v)
    r s k vis
    (_pointerDown v) (_pointerDragging v) (_pointerPosition v).

Definition with_pointer (v : View) (down dragging : bool) (position : Point)
  : View :=
  mkView (transformer v) (translateEnabled v) (skewRadius v) (_enabledHandles v)
    (_rotateEnabled v) (_scaleEnabled v) (_skewEnabled v) (visible v)
    down dragging position.

(** [handles[h].visible = b]. *)
Definition set_visible (vis : Handle -> bool) (h : Handle) (b : bool)
  : Handle -> bool :=
  fun k => if Handle_eq_dec k h then b else vis k.

(** The loop over [SCALE_HANDLES] that skips ['middleCenter']. *)
Definition show_scale_handles (vis : Handle -> bool) (b : bool)
  : Handle -> bool :=
  fold_left
    (fun vis s =>
       match s with
       | middleCenter => vis
       | _ => set_visible vis (HScale s) b
       end)
    SCALE_HANDLES vis.

(** The setter of [enabledHandles]; [None] is an absent list. *)
Definition set_enabledHandles (v : View) (value : option (list Handle)) : View :=
  match _enabledHandles v, value with
  | None, None => v
  | _, _ =>
      let vis :=
        fold_left (fun vis h => set_visible vis h false) HANDLES (visible v) in
      let vis :=
        match value with
        | Some l => fold_left (fun vis h => set_visible vis h true) l vis
        | None =>
            let vis := set_visible vis (HRotate rotator) (_rotateEnabled v) in
            let vis := set_visible vis (HSkew skewHorizontal) (_skewEnabled v) in
            let vis := set_visible vis (HSkew skewVertical) (_skewEnabled v) in
            show_scale_handles vis (_scaleEnabled v)
        end in
      with_enabledHandles v value vis
  end.

(** The setter of [rotateEnabled]; its guard is
    [!this._rotateEnabled !== value]. *)
Definition set_rotateEnabled (v : View) (value : bool) : View :=
  if negb (Bool.eqb (negb (_rotateEnabled v)) value) then
    match _enabledHandles v with
    | Some _ =>
        with_toggles v value (_scaleEnabled v) (_skewEnabled v) (visible v)
    | None =>
        with_toggles v value (_scaleEnabled v) (_skewEnabled v)
          (set_visible (visible v) (HRotate rotator) value)
    end
  else v.

(** The setter of [scaleEnabled]; its guard is
    [!this._scaleEnabled !== value]. *)
Definition set_scaleEnabled (v : View) (value : bool) : View :=
  if negb (Bool.eqb (negb (_scaleEnabled v)) value) then
    match _enabledHandles v with
    | Some _ =>
        with_toggles v (_rotateEnabled v) value (_skewEnabled v) (visible v)
    | None =>
        with_toggles v (_rotateEnabled v) value (_skewEnabled v)
          (show_scale_handles (visible v) value)
    end
  else v.

(** The setter of [skewEnabled]; its guard is
    [this._skewEnabled !== value]. *)
Definition set_skewEnabled (v : View) (value : bool) : View :=
  if negb (Bool.eqb (_skewEnabled v) value) then
    match _enabledHandles v with
    | Some _ =>
        with_toggles v (_rotateEnabled v) (_scaleEnabled v) value (visible v)
    | None =>
        with_toggles v (_rotateEnabled v) (_scaleEnabled v) value
          (set_visible
             (set_visible (visible v) (HSkew skewHorizontal) value)
             (HSkew skewVertical) value)
    end
  else v.

(** ** Dragging the transformer itself *)

(** [onPointerDown]. *)
Definition onPointerDown (v : View) : View :=
  with_pointer v true false (_pointerPosition v).

(** [onPointerMove]; [position] is the pointer in the transformer's local
    space, as [e.data.getLocalPosition] returns it. *)
Definition onPointerMove (v : View) (position : Point) : View :=
  if negb (_pointerDown v) then v
  else
    let lastPointerPosition := _pointerPosition v in
    let cx := px position in
    let cy := py position in
    let v :=
      if _pointerDragging v && translateEnabled v then
        let delta :=
          mkPoint (px position - px lastPointerPosition)
                  (py position - py lastPointerPosition) in
        with_transformer v (translateGroup (transformer v) delta)
      else v in
    with_pointer v (_pointerDown v) true (mkPoint cx cy).

(** [onPointerUp]. *)
Definition onPointerUp (v : View) : View :=
  with_pointer v false false (_pointerPosition v).

(** ** Dragging a handle ([TransformerHandle]) *)

Inductive PointerEvent :=
| PointerDown
| PointerMove (global : Point)
| PointerUp.

Module TransformerHandle.

Section Callbacks.

(** What the callbacks of a handle act on. *)
Variable W : Type.

(** The drag state of a [TransformerHandle] and its two callbacks;
    [_pointerMoveTarget] tells whether the ['pointermove'] listener is
    registered on a target. *)
Record t := mk {
  onHandleDelta : option (Point -> W -> W);
  onHandleCommit : option (W -> W);
  _pointerDown : bool;
  _pointerDragging : bool;
  _pointerPosition : Point;
  _pointerMoveTarget : bool
}.

Definition with_drag (h : t) (down dragging : bool) (position : Point)
    (target : bool) : t :=
  mk (onHandleDelta h) (onHandleCommit h) down dragging position target.

(** [onPointerDown]: the listener for moves is registered afresh. *)
Definition onPointerDown (h : t) : t :=
  with_drag h true false (_pointerPosition h) true.

(** [onDragStart]. *)
Definition onDragStart (h : t) (global : Point) : t :=
  with_drag h (_pointerDown h) true global (_pointerMoveTarget h).

(** [onDrag]. *)
Definition onDrag (h : t) (global : Point) (w : W) : t * W :=
  let w := match onHandleDelta h with
           | Some handler => handler global w
           | None => w
           end in
  (with_drag h (_pointerDown h) (_pointerDragging h) global
     (_pointerMoveTarget h), w).

(** [onDragEnd]. *)
Definition onDragEnd (h : t) (w : W) : t * W :=
  (with_drag h (_pointerDown h) false (_pointerPosition h)
     (_pointerMoveTarget h),
   match onHandleCommit h with
   | Some commit => commit w
   | None => w
   end).

(** [onPointerMove]. *)
Definition onPointerMove (h : t) (global : Point) (w : W) : t * W :=
  if negb (_pointerDown h) then (h, w)
  else if _pointerDragging h then onDrag h global w
  else (onDragStart h global, w).

(** [onPointerUp]: the listener for moves is removed. *)
Definition onPointerUp (h : t) (w : W) : t * W :=
  let (h, w) := if _pointerDragging h then onDragEnd h w else (h, w) in
  (with_drag h false (_pointerDragging h) (_pointerPosition h) false, w).

(** The delivery of one pointer event: downs and ups always reach the
    handle, moves only while its listener is registered. *)
Definition dispatch (hw : t * W) (e : PointerEvent) : t * W :=
  let (h, w) := hw in
  match e with
  | PointerDown => (onPointerDown h, w)
  | PointerMove global =>
      if _pointerMoveTarget h then onPointerMove h global w else (h, w)
  | PointerUp => onPointerUp h w
  end.

(** A handle as its own constructor leaves it, given the arguments
    [handler] and [commit]. *)
Definition create (handler : Point -> W -> W) (commit : W -> W) : t :=
  mk (Some handler) (Some commit) false false (mkPoint 0 0) false.

End Callbacks.

End TransformerHandle.

(** The rotator handle as the constructor of [Transformer] builds it from
    the default handle class, [TransformerHandle].  The
    call is [new HandleConstructor('rotator', handleStyle, callback,
    this.commitGroup)], where [callback] is the function that calls
    [rotateGroup], and the parameters of the constructor of
    [TransformerHandle] are [(transformer, handle, styleOpts, handler,
    commit, cursor)].  The fourth argument, [commitGroup], is therefore
    the delta handler, which is called with the pointer position and
    takes no notice of it; the callback lands in [styleOpts]; and no fifth
    argument is passed, so the commit handler is undefined. *)
Definition rotator_handle : TransformerHandle.t Transformer :=
  TransformerHandle.mk (Some (fun (_ : Point) t => commitGroup t)) None
    false false (mkPoint 0 0) false.

(** ** Drawing *)

Definition with_handles (t : Transformer) (positions : Handle -> Point)
  : Transformer :=
  mkTransformer (group t) (centeredScaling t) (rotationSnaps t)
    (rotationSnapTolerance t) (skewSnaps t) (skewSnapTolerance t)
    (transientGroupTilt t) (groupBounds t) positions (_skewX t) (_skewY t).

Section Drawing.

Variable decomposeRotation : Matrix -> R.

(** [pad] of the inner rectangle comes with [OrientedBounds], from outside
    this file. *)
Variable pad : Rectangle -> R -> Rectangle.

(** [drawHandles(groupBounds)]: the new positions of the handles, and the
    bounds as the two calls of [pad] leave them.  The corners that the
    scale and skew blocks read are those of the bounds after the second
    [pad]. *)
Definition drawHandles (v : View) (groupBounds : OrientedBounds)
  : (Handle -> Point) * OrientedBounds :=
  let t := transformer v in
  let padded := mkOB (pad (innerBounds groupBounds) 32) (rotation groupBounds) in
  let restored :=
    if _rotateEnabled v
    then mkOB (pad (innerBounds padded) (- 32)) (rotation groupBounds)
    else groupBounds in
  (fun h =>
     match h with
     | HRotate rotator =>
         if _rotateEnabled v then
           mkPoint ((px (OB.topLeft padded) + px (OB.topRight padded)) / 2)
                   ((py (OB.topLeft padded) + py (OB.topRight padded)) / 2)
         else handles t h
     | HScale s =>
         if _scaleEnabled v then drawHandles_scale restored s else handles t h
     | HSkew k =>
         if _skewEnabled v
         then drawHandles_skew restored (_skewX t) (_skewY t) (skewRadius v) k
         else handles t h
     end,
   restored).

(** [draw()]: measures the group, places the handles and caches the
    measured bounds. *)
Definition draw (v : View) : View :=
  let targets := group (transformer v) in
  let groupBounds :=
    match targets with
    | [target] => calculateOrientedBounds decomposeRotation target
    | _ =>
        calculateGroupOrientedBounds targets
          (rotation (groupBounds (transformer v)))
    end in
  let (positions, groupBounds) := drawHandles v groupBounds in
  with_transformer v
    (with_groupBounds (with_handles (transformer v) positions) groupBounds).

End Drawing.

(** A view of the drawn example scene, with the default toggles. *)
Definition example_view : View :=
  mkView drawn_rectangle true 64 None true true false
    (fun h => match h with
              | HScale middleCenter => false
              | HSkew _ => false
              | _ => true
              end)
    false false (mkPoint 0 0).
(** * Properties *)

(** ** The remainder operator *)

Lemma PI_gt_3 : 3 < PI.
Proof. pose proof PI2_3_2. lra. Qed.

Lemma trunc_small (q : R) : -1 < q < 1 -> JS.trunc q = 0.
Proof.
  intros [Hlo Hhi]. unfold JS.trunc.
  destruct (Rle_dec 0 q) as [Hq | Hq].
  - rewrite <- (Int_part_spec q 0); [reflexivity | simpl; lra].
  - rewrite <- (Int_part_spec (- q) 0); [simpl; lra | simpl; lra].
Qed.

Lemma trunc_frac (q : R) :
  (0 <= q /\ 0 <= q - JS.trunc q < 1) \/ (q < 0 /\ -1 < q - JS.trunc q <= 0).
Proof.
  unfold JS.trunc. destruct (Rle_dec 0 q) as [Hq | Hq].
  - left. pose proof (base_Int_part q). lra.
  - right. pose proof (base_Int_part (- q)). lra.
Qed.

Lemma rem_bounds (a m : R) : 0 < m -> - m < JS.rem a m < m.
Proof.
  intros Hm. unfold JS.rem.
  set (q := a / m).
  assert (Ha : a = m * q) by (unfold q; field; lra).
  rewrite Ha at 1.
  destruct (trunc_frac q) as [[_ H] | [_ H]]; nra.
Qed.

Lemma rem_small (a m : R) : 0 < m -> - m < a < m -> JS.rem a m = a.
Proof.
  intros Hm Ha. unfold JS.rem.
  rewrite trunc_small; [ring |].
  assert (Hinv : 0 < / m) by (apply Rinv_0_lt_compat; exact Hm).
  assert (Hone : m * / m = 1) by (field; lra).
  unfold Rdiv. split; nra.
Qed.

Lemma rem_idempotent (a m : R) : 0 < m -> JS.rem (JS.rem a m) m = JS.rem a m.
Proof. intros Hm. apply rem_small; [exact Hm | apply rem_bounds; exact Hm]. Qed.

Lemma two_PI_pos : 0 < PI * 2.
Proof. pose proof PI_gt_3. lra. Qed.

(** ** The angle snapper *)

Lemma leb_true (x y : R) : JS.leb x y = true <-> x <= y.
Proof. unfold JS.leb. destruct (Rle_dec x y); split; intros; congruence || tauto. Qed.

Lemma leb_false (x y : R) : JS.leb x y = false <-> ~ x <= y.
Proof. unfold JS.leb. destruct (Rle_dec x y); split; intros; congruence || tauto. Qed.

Lemma falsy_true (x : R) : JS.falsy x = true <-> x = 0.
Proof. unfold JS.falsy. destruct (Req_dec_T x 0); split; intros; congruence || tauto. Qed.

Lemma falsy_false (x : R) : JS.falsy x = false <-> x <> 0.
Proof. unfold JS.falsy. destruct (Req_dec_T x 0); split; intros; congruence || tauto. Qed.

(** The scan returns the first entry within the tolerance: everything
    before it is out of tolerance. *)
Lemma snapScan_Some (a tol : R) (l : list R) (s : R) :
  snapScan a tol l = Some s <->
  exists pre post,
    l = pre ++ s :: post /\
    Forall (fun t => ~ Rabs (a - t) <= tol) pre /\
    Rabs (a - s) <= tol.
Proof.
  induction l as [| x l IH]; simpl.
  - split; [discriminate |].
    intros (pre & post & H & _). destruct pre; discriminate.
  - destruct (JS.leb (Rabs (a - x)) tol) eqn:E.
    + apply leb_true in E. split.
      * intros [= <-]. exists [], l. auto.
      * intros (pre & post & H & Hpre & Hs).
        destruct pre as [| y pre]; simpl in H; injection H as -> ->.
        -- reflexivity.
        -- inversion Hpre; subst. tauto.
    + apply leb_false in E. rewrite IH. split.
      * intros (pre & post & -> & Hpre & Hs).
        exists (x :: pre), post. auto.
      * intros (pre & post & H & Hpre & Hs).
        destruct pre as [| y pre]; simpl in H; injection H as -> ->.
        -- tauto.
        -- inversion Hpre; subst. exists pre, post. auto.
Qed.

Lemma snapScan_None (a tol : R) (l : list R) :
  snapScan a tol l = None <-> Forall (fun t => ~ Rabs (a - t) <= tol) l.
Proof.
  induction l as [| x l IH]; simpl.
  - split; auto.
  - destruct (JS.leb (Rabs (a - x)) tol) eqn:E.
    + apply leb_true in E. split; [discriminate |].
      intros H; inversion H; subst; tauto.
    + apply leb_false in E. rewrite IH. split.
      * auto.
      * intros H; inversion H; auto.
Qed.

Lemma snapScan_In (a tol : R) (l : list R) (s : R) :
  snapScan a tol l = Some s -> In s l /\ Rabs (a - s) <= tol.
Proof.
  intros H. apply snapScan_Some in H as (pre & post & -> & _ & Hs).
  split; [apply in_elt | exact Hs].
Qed.

Lemma snapScan_hit (a tol : R) (l : list R) (s : R) :
  In s l -> Rabs (a - s) <= tol -> exists t, snapScan a tol l = Some t.
Proof.
  intros Hin Hs. destruct (snapScan a tol l) as [t |] eqn:E; [eauto |].
  apply snapScan_None in E. rewrite Forall_forall in E.
  exfalso. exact (E s Hin Hs).
Qed.

Lemma snapAngle_normalized (a tol : R) (snaps : option (list R)) :
  - (PI * 2) < a < PI * 2 ->
  snapAngle a tol snaps =
  match snaps with
  | None => a
  | Some l =>
      if (length l =? 1)%nat || JS.falsy tol then a
      else match snapScan a tol l with Some s => s | None => a end
  end.
Proof.
  intros Ha. unfold snapAngle.
  rewrite (rem_small two_PI_pos Ha). reflexivity.
Qed.

(** C5: [snapAngle] normalises the angle into the open interval
    (-2 pi, 2 pi) by the remainder; with a missing, empty or one-entry
    snap set, or a zero tolerance, the result is the normalised angle;
    otherwise it is the first snap value, in list order, whose distance
    from the normalised angle is at most the tolerance, and the normalised
    angle when no snap value is that close. *)
Theorem snapAngle_behaviour (angle tol : R) (snaps : list R) :
  let a := JS.rem angle (PI * 2) in
  - (2 * PI) < a < 2 * PI /\
  snapAngle angle tol None = a /\
  ( (((length snaps <= 1)%nat \/ tol = 0) /\
     snapAngle angle tol (Some snaps) = a)
    \/
    ((2 <= length snaps)%nat /\ tol <> 0 /\
     exists pre s post,
       snaps = pre ++ s :: post /\
       Forall (fun t => ~ Rabs (a - t) <= tol) pre /\
       Rabs (a - s) <= tol /\
       snapAngle angle tol (Some snaps) = s)
    \/
    ((2 <= length snaps)%nat /\ tol <> 0 /\
     Forall (fun t => ~ Rabs (a - t) <= tol) snaps /\
     snapAngle angle tol (Some snaps) = a) ).
Proof.
  intros a. split; [| split].
  - pose proof (rem_bounds angle two_PI_pos) as H. fold a in H. lra.
  - reflexivity.
  - unfold snapAngle. fold a.
    destruct (JS.falsy tol) eqn:Etol.
    { left. rewrite orb_true_r. apply falsy_true in Etol. auto. }
    apply falsy_false in Etol. rewrite orb_false_r.
    destruct (length snaps =? 1)%nat eqn:Elen.
    { left. apply Nat.eqb_eq in Elen. split; [left; lia | reflexivity]. }
    apply Nat.eqb_neq in Elen.
    destruct snaps as [| x [| y rest]].
    + left. simpl. split; [left; lia | reflexivity].
    + simpl in Elen. lia.
    + right. remember (x :: y :: rest) as l eqn:El.
      assert (Hlen : (2 <= length l)%nat) by (subst l; simpl; lia).
      destruct (snapScan a tol l) as [s |] eqn:E.
      * left. apply snapScan_Some in E as (pre & post & Hl & Hpre & Hs).
        split; [exact Hlen | split; [exact Etol |]].
        exists pre, s, post. auto.
      * right. apply snapScan_None in E. auto.
Qed.

Lemma rem_of_small (a : R) : -6 < a < 6 -> JS.rem a (PI * 2) = a.
Proof.
  intros Ha. apply rem_small; [exact two_PI_pos |].
  pose proof PI_gt_3. lra.
Qed.

(** C3, as stated, fails: a one-entry snap set never snaps.  The angle 1
    is within the tolerance 2 of the only snap value 0, and the result is
    1. *)
Lemma snapAngle_singleton_counterexample :
  0 < 2 /\ Rabs (JS.rem 1 (PI * 2) - 0) <= 2 /\
  snapAngle 1 2 (Some [0]) <> 0.
Proof.
  assert (H1 : JS.rem 1 (PI * 2) = 1) by (apply rem_of_small; lra).
  split; [lra | split].
  - rewrite H1. rewrite Rabs_pos_eq; lra.
  - unfold snapAngle. rewrite H1. simpl. lra.
Qed.

(** C3, amended: for a positive tolerance and a snap value [s] within the
    tolerance of the normalised angle, a one-entry snap set [[s]] returns
    the normalised angle unchanged, and [snapAngle] returns exactly [s] as
    soon as [s] heads a snap set of two or more entries. *)
Theorem snapAngle_within_tolerance (a tol s : R) :
  0 < tol ->
  Rabs (JS.rem a (PI * 2) - s) <= tol ->
  snapAngle a tol (Some [s]) = JS.rem a (PI * 2) /\
  forall s' rest, snapAngle a tol (Some (s :: s' :: rest)) = s.
Proof.
  intros Htol Hs. split; [reflexivity |].
  intros s' rest. unfold snapAngle.
  assert (E : JS.falsy tol = false) by (apply falsy_false; lra).
  rewrite E. simpl.
  apply leb_true in Hs. rewrite Hs. reflexivity.
Qed.

Lemma snapAngle_within_tolerance_witness :
  0 < 2 /\
  Rabs (JS.rem 1 (PI * 2) - 0) <= 2 /\
  snapAngle 1 2 (Some [0]) = JS.rem 1 (PI * 2) /\
  forall s' rest, snapAngle 1 2 (Some (0 :: s' :: rest)) = 0.
Proof.
  assert (Htol : 0 < 2) by lra.
  assert (Hs : Rabs (JS.rem 1 (PI * 2) - 0) <= 2).
  { rewrite rem_of_small by lra. rewrite Rabs_pos_eq; lra. }
  split; [exact Htol | split; [exact Hs |]].
  exact (@snapAngle_within_tolerance 1 2 0 Htol Hs).
Defined.

(** C4, as stated, fails: with the snap set [[0; 1]] and the tolerance 1,
    the angle 3/2 snaps to 1, and 1 snaps to 0. *)
Lemma snapAngle_idempotent_counterexample :
  snapAngle (snapAngle (3 / 2) 1 (Some [0; 1])) 1 (Some [0; 1])
  <> snapAngle (3 / 2) 1 (Some [0; 1]).
Proof.
  assert (H1 : snapAngle (3 / 2) 1 (Some [0; 1]) = 1).
  { unfold snapAngle. rewrite rem_of_small by lra.
    assert (E : JS.falsy 1 = false) by (apply falsy_false; lra).
    rewrite E. simpl.
    assert (E0 : JS.leb (Rabs (3 / 2 - 0)) 1 = false).
    { apply leb_false. rewrite Rabs_pos_eq; lra. }
    assert (E1 : JS.leb (Rabs (3 / 2 - 1)) 1 = true).
    { apply leb_true. rewrite Rabs_pos_eq; lra. }
    rewrite E0, E1. reflexivity. }
  rewrite H1.
  assert (H2 : snapAngle 1 1 (Some [0; 1]) = 0).
  { unfold snapAngle. rewrite rem_of_small by lra.
    assert (E : JS.falsy 1 = false) by (apply falsy_false; lra).
    rewrite E. simpl.
    assert (E0 : JS.leb (Rabs (1 - 0)) 1 = true).
    { apply leb_true. rewrite Rabs_pos_eq; lra. }
    rewrite E0. reflexivity. }
  rewrite H2. lra.
Qed.

(** C4, amended: snapping is idempotent for every angle and tolerance
    when every snap value lies strictly between -2 pi and 2 pi and any two
    snap values within the tolerance of each other are equal. *)
Theorem snapAngle_idempotent (x tol : R) (snaps : list R) :
  Forall (fun s => - (2 * PI) < s < 2 * PI) snaps ->
  (forall s t, In s snaps -> In t snaps -> Rabs (s - t) <= tol -> s = t) ->
  snapAngle (snapAngle x tol (Some snaps)) tol (Some snaps)
  = snapAngle x tol (Some snaps).
Proof.
  intros Hrange Hsep.
  pose proof (rem_bounds x two_PI_pos) as Ha.
  unfold snapAngle at 2 3.
  set (a := JS.rem x (PI * 2)) in *.
  destruct ((length snaps =? 1)%nat || JS.falsy tol) eqn:G.
  - rewrite snapAngle_normalized by exact Ha. rewrite G. reflexivity.
  - destruct (snapScan a tol snaps) as [s |] eqn:E.
    + apply snapScan_In in E as [Hin Hs].
      rewrite Forall_forall in Hrange.
      rewrite snapAngle_normalized by (specialize (Hrange s Hin); lra).
      rewrite G.
      assert (Htol : 0 <= tol) by (pose proof (Rabs_pos (a - s)); lra).
      destruct (@snapScan_hit s tol snaps s Hin) as [t Ht].
      { rewrite Rminus_diag, Rabs_R0. exact Htol. }
      rewrite Ht. apply snapScan_In in Ht as [Hint Hst].
      symmetry. apply Hsep; assumption.
    + rewrite snapAngle_normalized by exact Ha. rewrite G, E. reflexivity.
Qed.

Lemma snapAngle_idempotent_witness :
  Forall (fun s => - (2 * PI) < s < 2 * PI) [0; 1] /\
  (forall s t, In s [0; 1] -> In t [0; 1] -> Rabs (s - t) <= 1 / 2 -> s = t) /\
  snapAngle (snapAngle (3 / 2) (1 / 2) (Some [0; 1])) (1 / 2) (Some [0; 1])
  = snapAngle (3 / 2) (1 / 2) (Some [0; 1]).
Proof.
  assert (Hrange : Forall (fun s => - (2 * PI) < s < 2 * PI) [0; 1]).
  { pose proof PI_gt_3. repeat constructor; lra. }
  assert (Hsep : forall s t, In s [0; 1] -> In t [0; 1] ->
                             Rabs (s - t) <= 1 / 2 -> s = t).
  { intros s t [<- | [<- | []]] [<- | [<- | []]] H; try reflexivity;
      exfalso; revert H; unfold Rabs; destruct (Rcase_abs _); lra. }
  split; [exact Hrange | split; [exact Hsep |]].
  exact (@snapAngle_idempotent (3 / 2) (1 / 2) [0; 1] Hrange Hsep).
Defined.

(** ** Matrices *)

Lemma point_eq (p q : Point) : px p = px q -> py p = py q -> p = q.
Proof. destruct p, q; simpl; intros -> ->; reflexivity. Qed.

Lemma matrix_eq (m n : Matrix) :
  ma m = ma n -> mb m = mb n -> mc m = mc n -> md m = md n ->
  mtx m = mtx n -> mty m = mty n -> m = n.
Proof. destruct m, n; simpl; intros; subst; reflexivity. Qed.

Lemma apply_prepend (m n : Matrix) (p : Point) :
  Mat.apply (Mat.prepend m n) p = Mat.apply n (Mat.apply m p).
Proof. apply point_eq; simpl; ring. Qed.

Lemma apply_translate (m : Matrix) (x y : R) (p : Point) :
  Mat.apply (Mat.translate m x y) p =
  mkPoint (px (Mat.apply m p) + x) (py (Mat.apply m p) + y).
Proof. apply point_eq; simpl; ring. Qed.

Lemma apply_identity (p : Point) : Mat.apply Mat.identity p = p.
Proof. apply point_eq; simpl; ring. Qed.

Lemma prepend_identity (m : Matrix) : Mat.prepend m Mat.identity = m.
Proof. apply matrix_eq; simpl; ring. Qed.

Lemma multiplyTransform_identity (o : DisplayObject) :
  multiplyTransform o Mat.identity = o.
Proof.
  unfold multiplyTransform. rewrite prepend_identity. destruct o; reflexivity.
Qed.

(** ** The sentinel of the bounds scan *)

Lemma MAX_VALUE_large : 256 <= JS.MAX_VALUE.
Proof.
  unfold JS.MAX_VALUE.
  assert (H52 : 1 <= 2 ^ 52) by (apply pow_R1_Rle; lra).
  assert (Hinv : / 2 ^ 52 <= 1).
  { rewrite <- Rinv_1. apply Rinv_le_contravar; lra. }
  assert (Hpow : 2 ^ 8 <= 2 ^ 1023) by (apply Rle_pow; [lra | lia]).
  assert (H8 : 2 ^ 8 = 256) by (simpl; ring).
  rewrite H8 in Hpow.
  generalize dependent (2 ^ 1023). generalize dependent (/ 2 ^ 52).
  intros; nra.
Qed.

Lemma MAX_VALUE_pos : 0 < JS.MAX_VALUE.
Proof. pose proof MAX_VALUE_large. lra. Qed.

(** ** Group bounds *)

Lemma calculateGroupOrientedBounds_rotation (g : list DisplayObject) (r : R) :
  rotation (calculateGroupOrientedBounds g r) = r.
Proof. reflexivity. Qed.

Lemma updateGroupBounds_group (t : Transformer) (r : R) :
  group (updateGroupBounds t r) = group t.
Proof. reflexivity. Qed.

Lemma updateGroupBounds_rotation (t : Transformer) (r : R) :
  rotation (groupBounds (updateGroupBounds t r)) = r.
Proof. reflexivity. Qed.

(** C6: on an empty group the scan loop never runs, so the extremes keep
    their sentinels [MAX_VALUE] and [-MAX_VALUE] and the size is the
    difference of the two.  The rotation of the result is the reference
    rotation, as the claim says, but the width and the height are
    negative, not zero.  Only their sign is stated: the difference of the
    sentinels lies outside the range of doubles, where the subtraction of
    the program gives [-Infinity]. *)
Theorem empty_group_bounds_negative (r : R) :
  let b := calculateGroupOrientedBounds [] r in
  rotation b = r /\
  rwidth (innerBounds b) < 0 /\
  rheight (innerBounds b) < 0 /\
  rwidth (innerBounds b) <> 0 /\
  rheight (innerBounds b) <> 0.
Proof.
  unfold calculateGroupOrientedBounds. simpl.
  pose proof MAX_VALUE_pos. repeat split; lra.
Qed.

(** ** Gestures *)

(** C1: [rotateGroup] takes as candidate the bounds rotation plus the
    difference of the [atan2] angles of the pointer and of the handle about
    the bounds centre, snaps the candidate, and only then takes the
    difference with the old rotation: every member is multiplied by the
    rotation about the centre by that difference, the bounds rotation
    becomes the snapped candidate, and both skew angles advance by the
    same difference. *)
Theorem rotateGroup_snap_then_diff (t : Transformer) (p : Point) :
  let c := OB.center (groupBounds t) in
  let o := handles t (HRotate rotator) in
  let candidate :=
    rotation (groupBounds t)
    + (JS.atan2 (py p - py c) (px p - px c)
       - JS.atan2 (py o - py c) (px o - px c)) in
  let snapped :=
    snapAngle candidate (rotationSnapTolerance t) (Some (rotationSnaps t)) in
  let delta := snapped - rotation (groupBounds t) in
  let t' := rotateGroup t rotator p in
  exists matrix,
    (forall q,
        Mat.apply matrix q =
        mkPoint (px c + ((px q - px c) * cos delta - (py q - py c) * sin delta))
                (py c + ((px q - px c) * sin delta + (py q - py c) * cos delta))) /\
    group t' = map (fun d => multiplyTransform d matrix) (group t) /\
    rotation (groupBounds t') = snapped /\
    _skewX t' = _skewX t + delta /\
    _skewY t' = _skewY t + delta.
Proof.
  intros c o candidate snapped delta t'.
  exists (Mat.translate
            (Mat.rotate (Mat.translate Mat.identity (- px c) (- py c)) delta)
            (px c) (py c)).
  split; [| repeat split].
  intros q. apply point_eq; simpl; ring.
Qed.

(** C7: the centre handle has both direction components zero, so
    [scaleGroup] builds the identity matrix and leaves the transform of
    every group member as it was, wherever the pointer is. *)
Theorem scaleGroup_middleCenter_noop (t : Transformer) (p : Point) :
  SCALE_COMPONENTS middleCenter = (0, 0)%Z /\
  scaleGroup_matrix t middleCenter p = Mat.identity /\
  group (scaleGroup t middleCenter p) = group t.
Proof.
  split; [reflexivity | split; [reflexivity |]].
  unfold scaleGroup, prependTransform.
  rewrite updateGroupBounds_group.
  change (scaleGroup_matrix t middleCenter p) with Mat.identity.
  simpl. induction (group t) as [| d g IH]; simpl.
  - reflexivity.
  - rewrite multiplyTransform_identity, IH. reflexivity.
Qed.

(** C9: [commitGroup] sets the bounds rotation to 0 when
    [transientGroupTilt] is on and the group has more than one member, and
    is the identity on the transformer otherwise; the members keep their
    transforms in both cases. *)
Theorem commitGroup_resets_tilt (t : Transformer) :
  let t' := commitGroup t in
  group t' = group t /\
  ( (transientGroupTilt t = true /\ (1 < length (group t))%nat /\
     rotation (groupBounds t') = 0)
    \/
    ((transientGroupTilt t = false \/ (length (group t) <= 1)%nat) /\
     t' = t) ).
Proof.
  unfold commitGroup.
  destruct (transientGroupTilt t) eqn:Etilt; simpl.
  - destruct (1 <? length (group t))%nat eqn:Elen.
    + apply Nat.ltb_lt in Elen. split; [reflexivity |]. left. auto.
    + apply Nat.ltb_ge in Elen. split; [reflexivity |]. right. auto.
  - split; [reflexivity |]. right. auto.
Qed.

Section SkewProperties.

Variable createHorizontalSkew : R -> Matrix.
Variable createVerticalSkew : R -> Matrix.

(** C10: the vertical-skew gesture sets [skewY] to the snapped
    [atan2 (p - centre) - pi/2], multiplies every member by the matrix
    that moves the centre to the origin, shears horizontally by the old
    [skewY], then by the negated new [skewY], and moves back, and turns
    the bounds rotation by [-(newSkewY - oldSkewY)]; the horizontal-skew
    gesture sets [skewX] to the snapped [atan2 (p - centre)] and keeps
    the bounds rotation. *)
Theorem skewGroup_updates (t : Transformer) (p : Point) :
  let c := OB.center (groupBounds t) in
  let raw := JS.atan2 (py p - py c) (px p - px c) in
  let snap a := snapAngle a (skewSnapTolerance t) (Some (skewSnaps t)) in
  let tv := skewGroup createHorizontalSkew createVerticalSkew t skewVertical p in
  let th :=
    skewGroup createHorizontalSkew createVerticalSkew t skewHorizontal p in
  let unshift q := mkPoint (px q - px c) (py q - py c) in
  let shift q := mkPoint (px q + px c) (py q + py c) in
  (_skewY tv = snap (raw - PI / 2) /\
   _skewX tv = _skewX t /\
   rotation (groupBounds tv)
   = rotation (groupBounds t) - (_skewY tv - _skewY t) /\
   exists matrix,
     group tv = map (fun d => multiplyTransform d matrix) (group t) /\
     forall q,
       Mat.apply matrix q =
       shift (Mat.apply (createHorizontalSkew (- _skewY tv))
                (Mat.apply (createHorizontalSkew (_skewY t)) (unshift q))))
  /\
  (_skewX th = snap raw /\
   _skewY th = _skewY t /\
   rotation (groupBounds th) = rotation (groupBounds t) /\
   exists matrix,
     group th = map (fun d => multiplyTransform d matrix) (group t) /\
     forall q,
       Mat.apply matrix q =
       shift (Mat.apply (createVerticalSkew (_skewX th))
                (Mat.apply (createVerticalSkew (- _skewX t)) (unshift q)))).
Proof.
  intros c raw snap tv th unshift shift. split.
  - repeat split.
    eexists. split; [reflexivity |].
    intros q. apply point_eq; simpl; ring.
  - repeat split.
    eexists. split; [reflexivity |].
    intros q. apply point_eq; simpl; ring.
Qed.

End SkewProperties.

(** ** Scaling about a pivot *)

Lemma trig_one (angle : R) : sin angle * sin angle + cos angle * cos angle = 1.
Proof. pose proof (sin2_cos2 angle) as H. unfold Rsqr in H. exact H. Qed.

(** One [translate . rotate . scale . rotate . translate] chain of
    [scaleGroup], appended to the matrix [m]. *)
Lemma apply_scale_chain (m : Matrix) (o : Point) (angle sx sy : R) (q : Point) :
  Mat.apply
    (Mat.translate
       (Mat.rotate
          (Mat.scale
             (Mat.rotate (Mat.translate m (- px o) (- py o)) (- angle))
             sx sy)
          angle)
       (px o) (py o)) q =
  let u := (px (Mat.apply m q) - px o) * cos angle
           + (py (Mat.apply m q) - py o) * sin angle in
  let v := (py (Mat.apply m q) - py o) * cos angle
           - (px (Mat.apply m q) - px o) * sin angle in
  mkPoint (px o + (sx * u * cos angle - sy * v * sin angle))
          (py o + (sx * u * sin angle + sy * v * cos angle)).
Proof.
  apply point_eq; simpl; rewrite cos_neg, sin_neg; ring.
Qed.

(** Scaling the u-axis about [o] fixes the points of the line through
    [o] along the v-axis. *)
Lemma scale_chain_u_fixed (m : Matrix) (o : Point) (angle sx k : R) (q : Point) :
  px (Mat.apply m q) = px o - k * sin angle ->
  py (Mat.apply m q) = py o + k * cos angle ->
  Mat.apply
    (Mat.translate
       (Mat.rotate
          (Mat.scale
             (Mat.rotate (Mat.translate m (- px o) (- py o)) (- angle))
             sx 1)
          angle)
       (px o) (py o)) q = Mat.apply m q.
Proof.
  intros Hx Hy. rewrite apply_scale_chain.
  pose proof (trig_one angle) as H.
  apply point_eq; cbv zeta; cbn [px py]; rewrite Hx, Hy.
  - replace ((px o - k * sin angle - px o) * cos angle
             + (py o + k * cos angle - py o) * sin angle) with 0 by ring.
    replace ((py o + k * cos angle - py o) * cos angle
             - (px o - k * sin angle - px o) * sin angle)
      with (k * (sin angle * sin angle + cos angle * cos angle)) by ring.
    rewrite H. ring.
  - replace ((px o - k * sin angle - px o) * cos angle
             + (py o + k * cos angle - py o) * sin angle) with 0 by ring.
    replace ((py o + k * cos angle - py o) * cos angle
             - (px o - k * sin angle - px o) * sin angle)
      with (k * (sin angle * sin angle + cos angle * cos angle)) by ring.
    rewrite H. ring.
Qed.

(** Scaling the v-axis about [o] fixes the points of the line through
    [o] along the u-axis. *)
Lemma scale_chain_v_fixed (m : Matrix) (o : Point) (angle sy k : R) (q : Point) :
  px (Mat.apply m q) = px o + k * cos angle ->
  py (Mat.apply m q) = py o + k * sin angle ->
  Mat.apply
    (Mat.translate
       (Mat.rotate
          (Mat.scale
             (Mat.rotate (Mat.translate m (- px o) (- py o)) (- angle))
             1 sy)
          angle)
       (px o) (py o)) q = Mat.apply m q.
Proof.
  intros Hx Hy. rewrite apply_scale_chain.
  pose proof (trig_one angle) as H.
  apply point_eq; cbv zeta; cbn [px py]; rewrite Hx, Hy.
  - replace ((py o + k * sin angle - py o) * cos angle
             - (px o + k * cos angle - px o) * sin angle) with 0 by ring.
    replace ((px o + k * cos angle - px o) * cos angle
             + (py o + k * sin angle - py o) * sin angle)
      with (k * (sin angle * sin angle + cos angle * cos angle)) by ring.
    rewrite H. ring.
  - replace ((py o + k * sin angle - py o) * cos angle
             - (px o + k * cos angle - px o) * sin angle) with 0 by ring.
    replace ((px o + k * cos angle - px o) * cos angle
             + (py o + k * sin angle - py o) * sin angle)
      with (k * (sin angle * sin angle + cos angle * cos angle)) by ring.
    rewrite H. ring.
Qed.

Ltac corner_coordinates :=
  unfold OB.topLeft, OB.topRight, OB.bottomLeft, OB.bottomRight,
    OB.matrix, OB.center;
  simpl; ring.

(** Walks down the chains of [scaleGroup]'s matrix, trying the offsets 0,
    [w] and [h] along the fixed line of each chain. *)
Ltac pivot_fixed w h :=
  solve
    [ apply apply_identity
    | rewrite apply_identity; corner_coordinates
    | rewrite scale_chain_u_fixed with (k := 0); pivot_fixed w h
    | rewrite scale_chain_u_fixed with (k := h); pivot_fixed w h
    | rewrite scale_chain_v_fixed with (k := 0); pivot_fixed w h
    | rewrite scale_chain_v_fixed with (k := w); pivot_fixed w h ].

(** C2: on bounds of non-zero width and height, the matrix that
    [scaleGroup] builds fixes the pivot.  Without [centeredScaling] every
    corner of the bounds on the corner or edge opposite the dragged handle
    is mapped to itself, also when a corner handle composes the two
    per-axis matrices; with [centeredScaling] the centre of the bounds is
    mapped to itself. *)
Theorem scaleGroup_fixes_pivot (t : Transformer) (handle : ScaleHandle)
    (p : Point) :
  rwidth (innerBounds (groupBounds t)) <> 0 ->
  rheight (innerBounds (groupBounds t)) <> 0 ->
  let matrix := scaleGroup_matrix t handle p in
  (centeredScaling t = false ->
   Forall (fun a => Mat.apply matrix a = a)
          (opposite_anchors handle (groupBounds t))) /\
  (centeredScaling t = true ->
   Mat.apply matrix (OB.center (groupBounds t)) = OB.center (groupBounds t)).
Proof.
  intros _ _ matrix. subst matrix.
  split; intros Hc; unfold scaleGroup_matrix; rewrite Hc;
    destruct handle;
    cbn [SCALE_COMPONENTS fst snd Z.eqb Pos.eqb negb opposite_anchors];
    repeat constructor;
    pivot_fixed (rwidth (innerBounds (groupBounds t)))
                (rheight (innerBounds (groupBounds t))).
Qed.

Lemma scaleGroup_fixes_pivot_witness :
  rwidth (innerBounds (groupBounds drawn_rectangle)) <> 0 /\
  rheight (innerBounds (groupBounds drawn_rectangle)) <> 0 /\
  (centeredScaling drawn_rectangle = false ->
   Forall
     (fun a =>
        Mat.apply
          (scaleGroup_matrix drawn_rectangle bottomRight (mkPoint 150 50)) a
        = a)
     (opposite_anchors bottomRight (groupBounds drawn_rectangle))) /\
  (centeredScaling drawn_rectangle = true ->
   Mat.apply (scaleGroup_matrix drawn_rectangle bottomRight (mkPoint 150 50))
     (OB.center (groupBounds drawn_rectangle))
   = OB.center (groupBounds drawn_rectangle)).
Proof.
  assert (Hw : rwidth (innerBounds (groupBounds drawn_rectangle)) <> 0)
    by (simpl; lra).
  assert (Hh : rheight (innerBounds (groupBounds drawn_rectangle)) <> 0)
    by (simpl; lra).
  split; [exact Hw | split; [exact Hh |]].
  exact (@scaleGroup_fixes_pivot drawn_rectangle bottomRight
           (mkPoint 150 50) Hw Hh).
Defined.

(** ** The example scene *)

Lemma ltb_true (x y : R) : x < y -> JS.ltb x y = true.
Proof. intros H. unfold JS.ltb. destruct (Rlt_dec x y); tauto. Qed.

Lemma ltb_false (x y : R) : ~ x < y -> JS.ltb x y = false.
Proof. intros H. unfold JS.ltb. destruct (Rlt_dec x y); tauto. Qed.

Lemma rotate_identity_0 : Mat.rotate Mat.identity (- 0) = Mat.identity.
Proof.
  apply matrix_eq; simpl; rewrite Ropp_0, cos_0, sin_0; ring.
Qed.

Lemma applyInverse_identity (p : Point) : Mat.applyInverse Mat.identity p = p.
Proof. apply point_eq; simpl; field. Qed.

Lemma scanVertex_identity (e : Extremes) (p : Point) :
  scanVertex Mat.identity e p =
  mkExt (if JS.ltb (px p) (minX e) then px p else minX e)
        (if JS.ltb (py p) (minY e) then py p else minY e)
        (if JS.ltb (maxX e) (px p) then px p else maxX e)
        (if JS.ltb (maxY e) (py p) then py p else maxY e).
Proof. unfold scanVertex. rewrite apply_identity. reflexivity. Qed.

Ltac decide_ltb :=
  repeat match goal with
    | |- context [JS.ltb ?x ?y] =>
        first [ rewrite (@ltb_true x y) by lra
              | rewrite (@ltb_false x y) by lra ]
    end.

(** Runs the scan one vertex at a time, from the innermost step. *)
Ltac scan_vertices :=
  repeat match goal with
    | |- context [scanVertex Mat.identity (mkExt ?a ?b ?c ?d) ?p] =>
        rewrite (scanVertex_identity (mkExt a b c d) p);
        cbn [px py minX minY maxX maxY];
        decide_ltb
    end.

(** The bounds of one object whose frame is the rectangle from the origin
    to [(w, h)], measured at rotation 0. *)
Lemma bounds_of_origin_frame (d : DisplayObject) (w h : R) :
  0 < w <= 256 -> 0 < h <= 256 ->
  calculateTransformedCorners d (worldTransform d)
  = [mkPoint 0 0; mkPoint w 0; mkPoint w h; mkPoint 0 h] ->
  calculateGroupOrientedBounds [d] 0 = mkOB (mkRect 0 0 w h) 0.
Proof.
  intros Hw Hh Hframe. unfold calculateGroupOrientedBounds.
  cbn [flat_map]. rewrite Hframe, rotate_identity_0, applyInverse_identity.
  cbn [app fold_left].
  pose proof MAX_VALUE_large as Hmax.
  scan_vertices.
  unfold OB.set_center, OB.center. cbn.
  f_equal. f_equal; field.
Qed.

Lemma single_rectangle_bounds :
  calculateGroupOrientedBounds [rectangle_100_50] 0
  = mkOB (mkRect 0 0 100 50) 0.
Proof.
  apply bounds_of_origin_frame; [lra | lra |].
  unfold calculateTransformedCorners. simpl.
  repeat (f_equal; try (apply point_eq; simpl; ring)).
Qed.

Lemma scale_bottomRight_matrix (positions : Handle -> Point) :
  let h := positions (HScale bottomRight) in
  scaleGroup_matrix (single_rectangle positions) bottomRight
    (mkPoint (px h + 50) (py h + 0))
  = mkMatrix (3 / 2) 0 0 1 0 0.
Proof.
  intros h. unfold scaleGroup_matrix.
  cbn [SCALE_COMPONENTS fst snd Z.eqb Pos.eqb negb single_rectangle
       centeredScaling groupBounds handles rotation innerBounds
       rwidth rheight px py].
  fold h.
  unfold OB.topLeft, OB.topRight, OB.bottomLeft, OB.matrix, OB.center.
  apply matrix_eq; simpl; rewrite ?Ropp_0, ?cos_0, ?sin_0; field.
Qed.

(** C8: around a single unrotated 100 x 50 rectangle at the origin,
    dragging the bottom-right handle by (+50, 0) without centred scaling
    gives bounds of width 150 and height 50 whose top-left corner is
    still (0, 0). *)
Theorem scale_bottomRight_example (positions : Handle -> Point) :
  let t := single_rectangle positions in
  let h := positions (HScale bottomRight) in
  let t' := scaleGroup t bottomRight (mkPoint (px h + 50) (py h + 0)) in
  groupBounds t = calculateGroupOrientedBounds (group t) 0 /\
  OB.topLeft (groupBounds t) = mkPoint 0 0 /\
  rwidth (innerBounds (groupBounds t')) = 150 /\
  rheight (innerBounds (groupBounds t')) = 50 /\
  OB.topLeft (groupBounds t') = mkPoint 0 0.
Proof.
  intros t h t'.
  assert (Ht' : groupBounds t' = mkOB (mkRect 0 0 150 50) 0).
  { unfold t', scaleGroup. unfold t, h. rewrite scale_bottomRight_matrix.
    unfold prependTransform, updateGroupBounds.
    cbn [single_rectangle with_group with_groupBounds group groupBounds
         rotation map].
    apply bounds_of_origin_frame; [lra | lra |].
    unfold calculateTransformedCorners. simpl.
    repeat (f_equal; try (apply point_eq; simpl; field)). }
  rewrite Ht'. split; [| repeat split].
  - symmetry. exact single_rectangle_bounds.
  - unfold OB.topLeft, OB.matrix, OB.center.
    apply point_eq; simpl; rewrite cos_0, sin_0; field.
  - unfold OB.topLeft, OB.matrix, OB.center.
    apply point_eq; simpl; rewrite cos_0, sin_0; field.
Qed.

(** * Further properties *)

(** ** How a delta acts on the group *)

Lemma prepend_assoc (m n k : Matrix) :
  Mat.prepend (Mat.prepend m n) k = Mat.prepend m (Mat.prepend n k).
Proof. apply matrix_eq; simpl; ring. Qed.

Lemma corners_multiplyTransform (d : DisplayObject) (delta : Matrix) :
  calculateTransformedCorners (multiplyTransform d delta)
    (worldTransform (multiplyTransform d delta))
  = map (Mat.apply delta) (calculateTransformedCorners d (worldTransform d)).
Proof.
  unfold calculateTransformedCorners, multiplyTransform.
  cbn [worldTransform localBounds map]. rewrite !apply_prepend. reflexivity.
Qed.

Lemma frames_of_moved_group (t : Transformer) (delta : Matrix)
    (skipUpdate : bool) :
  flat_map (fun d => calculateTransformedCorners d (worldTransform d))
    (group (prependTransform t delta skipUpdate))
  = map (Mat.apply delta)
      (flat_map (fun d => calculateTransformedCorners d (worldTransform d))
         (group t)).
Proof.
  assert (Hg : group (prependTransform t delta skipUpdate)
               = map (fun d => multiplyTransform d delta) (group t))
    by (destruct skipUpdate; reflexivity).
  rewrite Hg. clear Hg. induction (group t) as [| d g IH]; [reflexivity |].
  cbn [map flat_map]. rewrite map_app, IH, corners_multiplyTransform.
  reflexivity.
Qed.

(** X1: [prependTransform] moves every frame vertex of every member by
    [delta], in world space, and keeps the order of the vertices. *)
Theorem prependTransform_moves_frames (t : Transformer) (delta : Matrix)
    (skipUpdate : bool) :
  flat_map (fun d => calculateTransformedCorners d (worldTransform d))
    (group (prependTransform t delta skipUpdate))
  = map (Mat.apply delta)
      (flat_map (fun d => calculateTransformedCorners d (worldTransform d))
         (group t)).
Proof. exact (@frames_of_moved_group t delta skipUpdate). Qed.

Lemma deltas_compose (t : Transformer) (first second : Matrix)
    (s1 s2 s : bool) :
  group (prependTransform (prependTransform t first s1) second s2)
  = group (prependTransform t (Mat.prepend first second) s) /\
  forall d1 d2 : Point,
    group (translateGroup (translateGroup t d1) d2)
    = group (translateGroup t (mkPoint (px d1 + px d2) (py d1 + py d2))).
Proof.
  assert (Hg : forall u m b, group (prependTransform u m b)
                             = map (fun d => multiplyTransform d m) (group u))
    by (intros u m []; reflexivity).
  assert (Hc : forall m n, map (fun d => multiplyTransform d n)
                             (map (fun d => multiplyTransform d m) (group t))
                           = map (fun d => multiplyTransform d (Mat.prepend m n))
                               (group t)).
  { intros m n. rewrite map_map. apply map_ext. intros d.
    unfold multiplyTransform. cbn [worldTransform localBounds].
    rewrite prepend_assoc. reflexivity. }
  split.
  - rewrite !Hg. apply Hc.
  - intros d1 d2. unfold translateGroup. rewrite !Hg, Hc.
    apply map_ext. intros d. f_equal.
    apply matrix_eq; simpl; ring.
Qed.

(** X2: two deltas applied one after the other act on the members as
    the single delta [first.prepend(second)]; in particular two
    translations add up. *)
Theorem prependTransform_composes (t : Transformer) (first second : Matrix)
    (s1 s2 s : bool) :
  group (prependTransform (prependTransform t first s1) second s2)
  = group (prependTransform t (Mat.prepend first second) s) /\
  forall d1 d2 : Point,
    group (translateGroup (translateGroup t d1) d2)
    = group (translateGroup t (mkPoint (px d1 + px d2) (py d1 + py d2))).
Proof. exact (@deltas_compose t first second s1 s2 s). Qed.

(** X3: no gesture adds, removes or reorders members, touches a member's
    local bounds, moves a handle or changes an option of the transformer;
    translating, scaling and committing also keep both skew angles. *)
Theorem gestures_keep_configuration
    (createHorizontalSkew createVerticalSkew : R -> Matrix)
    (t : Transformer) (p : Point) (h : ScaleHandle) (k : SkewHandle) :
  let same t' :=
    map localBounds (group t') = map localBounds (group t) /\
    handles t' = handles t /\
    centeredScaling t' = centeredScaling t /\
    rotationSnaps t' = rotationSnaps t /\
    rotationSnapTolerance t' = rotationSnapTolerance t /\
    skewSnaps t' = skewSnaps t /\
    skewSnapTolerance t' = skewSnapTolerance t /\
    transientGroupTilt t' = transientGroupTilt t in
  let same_skew t' := _skewX t' = _skewX t /\ _skewY t' = _skewY t in
  same (translateGroup t p) /\ same_skew (translateGroup t p) /\
  same (rotateGroup t rotator p) /\
  same (scaleGroup t h p) /\ same_skew (scaleGroup t h p) /\
  same (skewGroup createHorizontalSkew createVerticalSkew t k p) /\
  same (commitGroup t) /\ same_skew (commitGroup t).
Proof.
  assert (Hmap : forall m, map localBounds
                             (map (fun d => multiplyTransform d m) (group t))
                           = map localBounds (group t)).
  { intros m. rewrite map_map. apply map_ext. reflexivity. }
  intros same same_skew. unfold same, same_skew.
  repeat split; try reflexivity; try apply Hmap;
    unfold commitGroup;
    destruct (transientGroupTilt t && (1 <? length (group t))%nat);
    reflexivity.
Qed.

(** ** The rotation matrix *)

(** X4: the matrix of [rotateGroup] keeps the centre of the bounds in
    place and keeps the distance between any two points. *)
Theorem rotateGroup_is_rigid (t : Transformer) (p : Point) :
  exists matrix,
    group (rotateGroup t rotator p)
    = map (fun d => multiplyTransform d matrix) (group t) /\
    Mat.apply matrix (OB.center (groupBounds t)) = OB.center (groupBounds t) /\
    forall q1 q2,
      (px (Mat.apply matrix q1) - px (Mat.apply matrix q2)) ^ 2
      + (py (Mat.apply matrix q1) - py (Mat.apply matrix q2)) ^ 2
      = (px q1 - px q2) ^ 2 + (py q1 - py q2) ^ 2.
Proof.
  eexists. split; [reflexivity | split].
  - apply point_eq; simpl; ring.
  - intros q1 q2. simpl.
    match goal with |- context [cos ?a] => pose proof (trig_one a) as H;
      generalize dependent (cos a); generalize dependent (sin a) end.
    intros s c H.
    match goal with |- ?l = ?r =>
      replace l with (((px q1 - px q2) ^ 2 + (py q1 - py q2) ^ 2)
                      * (s * s + c * c)) by ring end.
    rewrite H. ring.
Qed.

(** ** Scaling, read in the frame of the bounds *)

Lemma frame_point_coordinates (o : Point) (angle : R) (q : Point) :
  q = frame_point o angle
        ((px q - px o) * cos angle + (py q - py o) * sin angle)
        ((py q - py o) * cos angle - (px q - px o) * sin angle).
Proof.
  pose proof (trig_one angle) as H. unfold frame_point.
  apply point_eq; cbn [px py].
  - replace (px o + (((px q - px o) * cos angle + (py q - py o) * sin angle)
                       * cos angle
                     - ((py q - py o) * cos angle - (px q - px o) * sin angle)
                       * sin angle))
      with (px o + (px q - px o) * (sin angle * sin angle + cos angle * cos angle))
      by ring.
    rewrite H. ring.
  - replace (py o + (((px q - px o) * cos angle + (py q - py o) * sin angle)
                       * sin angle
                     + ((py q - py o) * cos angle - (px q - px o) * sin angle)
                       * cos angle))
      with (py o + (py q - py o) * (sin angle * sin angle + cos angle * cos angle))
      by ring.
    rewrite H. ring.
Qed.

Lemma frame_point_inj_coordinates (o : Point) (angle u v : R) :
  (px (frame_point o angle u v) - px o) * cos angle
  + (py (frame_point o angle u v) - py o) * sin angle = u /\
  (py (frame_point o angle u v) - py o) * cos angle
  - (px (frame_point o angle u v) - px o) * sin angle = v.
Proof.
  pose proof (trig_one angle) as H. unfold frame_point. cbn [px py]. split.
  - replace ((px o + (u * cos angle - v * sin angle) - px o) * cos angle
             + (py o + (u * sin angle + v * cos angle) - py o) * sin angle)
      with (u * (sin angle * sin angle + cos angle * cos angle)) by ring.
    rewrite H. ring.
  - replace ((py o + (u * sin angle + v * cos angle) - py o) * cos angle
             - (px o + (u * cos angle - v * sin angle) - px o) * sin angle)
      with (v * (sin angle * sin angle + cos angle * cos angle)) by ring.
    rewrite H. ring.
Qed.

Lemma frame_point_shift (o : Point) (angle uo vo u v : R) :
  frame_point (frame_point o angle uo vo) angle u v
  = frame_point o angle (uo + u) (vo + v).
Proof. unfold frame_point. apply point_eq; cbn [px py]; ring. Qed.

(** One chain of [scaleGroup] about the pivot with frame coordinates
    [(uo, vo)] stretches the frame coordinates away from the pivot. *)
Lemma scale_chain_in_frame (m : Matrix) (c : Point) (angle sx sy : R)
    (q : Point) (uo vo u v : R) :
  Mat.apply m q = frame_point c angle u v ->
  Mat.apply
    (Mat.translate
       (Mat.rotate
          (Mat.scale
             (Mat.rotate
                (Mat.translate m (- px (frame_point c angle uo vo))
                   (- py (frame_point c angle uo vo)))
                (- angle))
             sx sy)
          angle)
       (px (frame_point c angle uo vo)) (py (frame_point c angle uo vo))) q
  = frame_point c angle (uo + sx * (u - uo)) (vo + sy * (v - vo)).
Proof.
  intros Hq. rewrite apply_scale_chain, Hq. cbv zeta.
  replace (frame_point c angle u v)
    with (frame_point (frame_point c angle uo vo) angle (u - uo) (v - vo))
    by (rewrite frame_point_shift; f_equal; ring).
  destruct (frame_point_inj_coordinates (frame_point c angle uo vo) angle
              (u - uo) (v - vo)) as [Hu Hv].
  rewrite Hu, Hv.
  rewrite <- (frame_point_shift c angle uo vo (sx * (u - uo)) (sy * (v - vo))).
  reflexivity.
Qed.

Lemma bounds_corners_in_frame (b : OrientedBounds) :
  let c := OB.center b in
  let a := rotation b in
  let w := rwidth (innerBounds b) in
  let h := rheight (innerBounds b) in
  OB.topLeft b = frame_point c a (- w / 2) (- h / 2) /\
  OB.topRight b = frame_point c a (w / 2) (- h / 2) /\
  OB.bottomLeft b = frame_point c a (- w / 2) (h / 2) /\
  OB.bottomRight b = frame_point c a (w / 2) (h / 2) /\
  OB.center b = frame_point c a 0 0.
Proof.
  unfold OB.topLeft, OB.topRight, OB.bottomLeft, OB.bottomRight, OB.matrix,
    OB.center, frame_point.
  repeat split; apply point_eq; simpl; field.
Qed.

Lemma scale_chain_about_centre (m : Matrix) (c : Point) (angle sx sy : R)
    (q : Point) (u v : R) :
  Mat.apply m q = frame_point c angle u v ->
  Mat.apply
    (Mat.translate
       (Mat.rotate
          (Mat.scale
             (Mat.rotate (Mat.translate m (- px c) (- py c)) (- angle))
             sx sy)
          angle)
       (px c) (py c)) q
  = frame_point c angle (sx * u) (sy * v).
Proof.
  intros Hq. rewrite apply_scale_chain, Hq. cbv zeta.
  destruct (frame_point_inj_coordinates c angle u v) as [Hu Hv].
  rewrite Hu, Hv. reflexivity.
Qed.

Lemma bounds_axes (b : OrientedBounds) :
  rwidth (innerBounds b) <> 0 ->
  rheight (innerBounds b) <> 0 ->
  (px (OB.topRight b) - px (OB.topLeft b)) / rwidth (innerBounds b)
  = cos (rotation b) /\
  (py (OB.topRight b) - py (OB.topLeft b)) / rwidth (innerBounds b)
  = sin (rotation b) /\
  (px (OB.bottomLeft b) - px (OB.topLeft b)) / rheight (innerBounds b)
  = - sin (rotation b) /\
  (py (OB.bottomLeft b) - py (OB.topLeft b)) / rheight (innerBounds b)
  = cos (rotation b).
Proof.
  intros Hw Hh.
  unfold OB.topLeft, OB.topRight, OB.bottomLeft, OB.matrix, OB.center.
  repeat split; simpl; field; assumption.
Qed.

Lemma frame_point_ext (c : Point) (a u v u' v' : R) :
  u = u' -> v = v' -> frame_point c a u v = frame_point c a u' v'.
Proof. intros -> ->. reflexivity. Qed.

Lemma scale_matrix_in_frame (t : Transformer) (hd : ScaleHandle) (p : Point) :
  rwidth (innerBounds (groupBounds t)) <> 0 ->
  rheight (innerBounds (groupBounds t)) <> 0 ->
  let b := groupBounds t in
  let a := rotation b in
  let w := rwidth (innerBounds b) in
  let h := rheight (innerBounds b) in
  let xDir := IZR (fst (SCALE_COMPONENTS hd)) in
  let yDir := IZR (snd (SCALE_COMPONENTS hd)) in
  let dx := px p - px (handles t (HScale hd)) in
  let dy := py p - py (handles t (HScale hd)) in
  let sx := 1 + (dx * cos a + dy * sin a) * xDir / w in
  let sy := 1 + (dy * cos a - dx * sin a) * yDir / h in
  let uo := if centeredScaling t then 0 else - xDir * w / 2 in
  let vo := if centeredScaling t then 0 else - yDir * h / 2 in
  forall u v,
    Mat.apply (scaleGroup_matrix t hd p) (frame_point (OB.center b) a u v)
    = frame_point (OB.center b) a (uo + sx * (u - uo)) (vo + sy * (v - vo)).
Proof.
  intros Hw Hh b a w h xDir yDir dx dy sx sy uo vo u v.
  subst uo vo sx sy xDir yDir dx dy w h a b.
  destruct (@bounds_axes (groupBounds t) Hw Hh) as (Hux & Huy & Hvx & Hvy).
  destruct (bounds_corners_in_frame (groupBounds t))
    as (Htl & Htr & Hbl & _ & _).
  cbv zeta in Htl, Htr, Hbl.
  unfold scaleGroup_matrix. cbv zeta.
  rewrite Hux, Huy, Hvx, Hvy. clear Hux Huy Hvx Hvy.
  pose proof (fun m q uo vo sx sy =>
                @scale_chain_in_frame m (OB.center (groupBounds t))
                  (rotation (groupBounds t)) sx sy q uo vo) as Hin.
  pose proof (fun m q sx sy =>
                @scale_chain_about_centre m (OB.center (groupBounds t))
                  (rotation (groupBounds t)) sx sy q) as Hc.
  pose proof (apply_identity
                (frame_point (OB.center (groupBounds t))
                   (rotation (groupBounds t)) u v)) as Hid.
  destruct (centeredScaling t); destruct hd;
    cbn [SCALE_COMPONENTS fst snd Z.eqb Pos.eqb negb];
    rewrite ?Htl, ?Htr, ?Hbl;
    repeat match goal with
      | |- context [Mat.apply Mat.identity ?q] => rewrite (apply_identity q)
      | |- Mat.apply
             (Mat.translate
                (Mat.rotate
                   (Mat.scale
                      (Mat.rotate
                         (Mat.translate
                            (Mat.translate
                               (Mat.rotate
                                  (Mat.scale
                                     (Mat.rotate
                                        (Mat.translate Mat.identity
                                           (- px (frame_point _ _ ?u1 ?v1)) _)
                                        _) ?s1 ?s2) _) _ _)
                            (- px (frame_point _ _ ?u2 ?v2)) _)
                         _) ?s3 ?s4) _) _ _) _ = _ =>
          rewrite (Hin _ _ u2 v2 s3 s4 _ _ (Hin _ _ u1 v1 s1 s2 _ _ Hid))
      | |- Mat.apply
             (Mat.translate
                (Mat.rotate
                   (Mat.scale
                      (Mat.rotate
                         (Mat.translate Mat.identity
                            (- px (frame_point _ _ ?u1 ?v1)) _)
                         _) ?s1 ?s2) _) _ _) _ = _ =>
          rewrite (Hin _ _ u1 v1 s1 s2 _ _ Hid)
      | |- Mat.apply
             (Mat.translate
                (Mat.rotate
                   (Mat.scale
                      (Mat.rotate
                         (Mat.translate
                            (Mat.translate
                               (Mat.rotate
                                  (Mat.scale
                                     (Mat.rotate
                                        (Mat.translate Mat.identity
                                           (- px (OB.center _)) _)
                                        _) ?s1 ?s2) _) _ _)
                            (- px (OB.center _)) _)
                         _) ?s3 ?s4) _) _ _) _ = _ =>
          rewrite (Hc _ _ s3 s4 _ _ (Hc _ _ s1 s2 _ _ Hid))
      | |- Mat.apply
             (Mat.translate
                (Mat.rotate
                   (Mat.scale
                      (Mat.rotate
                         (Mat.translate Mat.identity
                            (- px (OB.center _)) _)
                         _) ?s1 ?s2) _) _ _) _ = _ =>
          rewrite (Hc _ _ s1 s2 _ _ Hid)
      end;
    apply frame_point_ext; field; assumption.
Qed.

(** X5: read in the frame of the bounds (origin at the centre, axes
    along the edges), the matrix of [scaleGroup] stretches each active
    axis away from its pivot by the factor [1 + delta * dir / extent],
    where [delta] is the pointer's displacement from the handle along
    that axis, and leaves the other axis alone. *)
Theorem scaleGroup_in_frame (t : Transformer) (hd : ScaleHandle) (p : Point) :
  rwidth (innerBounds (groupBounds t)) <> 0 ->
  rheight (innerBounds (groupBounds t)) <> 0 ->
  let b := groupBounds t in
  let a := rotation b in
  let w := rwidth (innerBounds b) in
  let h := rheight (innerBounds b) in
  let xDir := IZR (fst (SCALE_COMPONENTS hd)) in
  let yDir := IZR (snd (SCALE_COMPONENTS hd)) in
  let dx := px p - px (handles t (HScale hd)) in
  let dy := py p - py (handles t (HScale hd)) in
  let sx := 1 + (dx * cos a + dy * sin a) * xDir / w in
  let sy := 1 + (dy * cos a - dx * sin a) * yDir / h in
  let uo := if centeredScaling t then 0 else - xDir * w / 2 in
  let vo := if centeredScaling t then 0 else - yDir * h / 2 in
  forall u v,
    Mat.apply (scaleGroup_matrix t hd p) (frame_point (OB.center b) a u v)
    = frame_point (OB.center b) a (uo + sx * (u - uo)) (vo + sy * (v - vo)).
Proof. exact (@scale_matrix_in_frame t hd p). Qed.

Lemma drawHandles_scale_in_frame (b : OrientedBounds) (hd : ScaleHandle) :
  drawHandles_scale b hd
  = frame_point (OB.center b) (rotation b)
      (IZR (fst (SCALE_COMPONENTS hd)) * rwidth (innerBounds b) / 2)
      (IZR (snd (SCALE_COMPONENTS hd)) * rheight (innerBounds b) / 2).
Proof.
  destruct (bounds_corners_in_frame b) as (Htl & Htr & Hbl & Hbr & _).
  cbv zeta in Htl, Htr, Hbl, Hbr.
  unfold drawHandles_scale. cbv zeta. rewrite Htl, Htr, Hbl, Hbr.
  destruct hd; cbn [SCALE_COMPONENTS fst snd]; unfold frame_point;
    apply point_eq; cbn [px py]; field.
Qed.

Lemma IZR_sq_component (hd : ScaleHandle) :
  (fst (SCALE_COMPONENTS hd) <> 0%Z ->
   IZR (fst (SCALE_COMPONENTS hd)) * IZR (fst (SCALE_COMPONENTS hd)) = 1) /\
  (snd (SCALE_COMPONENTS hd) <> 0%Z ->
   IZR (snd (SCALE_COMPONENTS hd)) * IZR (snd (SCALE_COMPONENTS hd)) = 1).
Proof. destruct hd; cbn; split; intros H; try lra; contradiction. Qed.

Lemma scaled_handle_position (t : Transformer) (hd : ScaleHandle) (p : Point) :
  rwidth (innerBounds (groupBounds t)) <> 0 ->
  rheight (innerBounds (groupBounds t)) <> 0 ->
  centeredScaling t = false ->
  handles t (HScale hd) = drawHandles_scale (groupBounds t) hd ->
  let a := rotation (groupBounds t) in
  let xDir := IZR (fst (SCALE_COMPONENTS hd)) in
  let yDir := IZR (snd (SCALE_COMPONENTS hd)) in
  let dx := px p - px (handles t (HScale hd)) in
  let dy := py p - py (handles t (HScale hd)) in
  Mat.apply (scaleGroup_matrix t hd p) (handles t (HScale hd))
  = frame_point (handles t (HScale hd)) a
      (xDir * xDir * (dx * cos a + dy * sin a))
      (yDir * yDir * (dy * cos a - dx * sin a)).
Proof.
  intros Hw Hh Hc Hpos a xDir yDir dx dy.
  subst a xDir yDir dx dy.
  rewrite Hpos at 1 2. rewrite drawHandles_scale_in_frame.
  rewrite (@scale_matrix_in_frame t hd p Hw Hh), Hc, frame_point_shift.
  apply frame_point_ext; field; assumption.
Qed.

(** X6: without centred scaling, a scale handle drawn at its place moves
    by the pointer's displacement from it, projected on the axes of the
    bounds that the handle drives: fully along the u-axis if its x
    direction is not zero, fully along the v-axis if its y direction is
    not zero, and not at all along an axis it does not drive. *)
Theorem scaleGroup_moves_handle (t : Transformer) (hd : ScaleHandle) (p : Point) :
  rwidth (innerBounds (groupBounds t)) <> 0 ->
  rheight (innerBounds (groupBounds t)) <> 0 ->
  centeredScaling t = false ->
  handles t (HScale hd) = drawHandles_scale (groupBounds t) hd ->
  let a := rotation (groupBounds t) in
  let xDir := IZR (fst (SCALE_COMPONENTS hd)) in
  let yDir := IZR (snd (SCALE_COMPONENTS hd)) in
  let dx := px p - px (handles t (HScale hd)) in
  let dy := py p - py (handles t (HScale hd)) in
  Mat.apply (scaleGroup_matrix t hd p) (handles t (HScale hd))
  = frame_point (handles t (HScale hd)) a
      (xDir * xDir * (dx * cos a + dy * sin a))
      (yDir * yDir * (dy * cos a - dx * sin a)).
Proof. exact (@scaled_handle_position t hd p). Qed.

Lemma drawn_rectangle_nondegenerate :
  rwidth (innerBounds (groupBounds drawn_rectangle)) <> 0 /\
  rheight (innerBounds (groupBounds drawn_rectangle)) <> 0.
Proof. split; simpl; lra. Qed.

Ltac at_rotation_0 :=
  unfold frame_point, drawHandles_scale, OB.topLeft, OB.topRight,
    OB.bottomLeft, OB.bottomRight, OB.matrix, OB.center;
  simpl; rewrite ?Ropp_0, ?cos_0, ?sin_0.

Lemma scaleGroup_in_frame_witness :
  rwidth (innerBounds (groupBounds drawn_rectangle)) <> 0 /\
  rheight (innerBounds (groupBounds drawn_rectangle)) <> 0 /\
  forall u v,
    Mat.apply (scaleGroup_matrix drawn_rectangle bottomRight (mkPoint 150 50))
      (frame_point (mkPoint 50 25) 0 u v)
    = frame_point (mkPoint 50 25) 0 (- 50 + 3 / 2 * (u + 50)) v.
Proof.
  destruct drawn_rectangle_nondegenerate as [Hw Hh].
  split; [exact Hw | split; [exact Hh |]]. intros u v.
  pose proof (@scaleGroup_in_frame drawn_rectangle bottomRight
                (mkPoint 150 50) Hw Hh u v) as H.
  cbv zeta in H.
  replace (OB.center (groupBounds drawn_rectangle)) with (mkPoint 50 25) in H
    by (apply point_eq; simpl; lra).
  change (rotation (groupBounds drawn_rectangle)) with 0 in H.
  rewrite H. apply frame_point_ext; at_rotation_0; field.
Defined.

Lemma scaleGroup_moves_handle_witness :
  rwidth (innerBounds (groupBounds drawn_rectangle)) <> 0 /\
  rheight (innerBounds (groupBounds drawn_rectangle)) <> 0 /\
  centeredScaling drawn_rectangle = false /\
  handles drawn_rectangle (HScale topCenter)
  = drawHandles_scale (groupBounds drawn_rectangle) topCenter /\
  Mat.apply (scaleGroup_matrix drawn_rectangle topCenter (mkPoint 70 (-10)))
    (handles drawn_rectangle (HScale topCenter))
  = mkPoint 50 (-10).
Proof.
  destruct drawn_rectangle_nondegenerate as [Hw Hh].
  split; [exact Hw | split; [exact Hh | split; [reflexivity |]]].
  split; [reflexivity |].
  rewrite (@scaleGroup_moves_handle drawn_rectangle topCenter
             (mkPoint 70 (-10)) Hw Hh eq_refl eq_refl).
  apply point_eq; at_rotation_0; field.
Defined.

(** X7: without centred scaling, a corner handle drawn at its place is
    carried exactly onto the pointer. *)
Theorem scaleGroup_corner_follows_pointer (t : Transformer) (hd : ScaleHandle)
    (p : Point) :
  rwidth (innerBounds (groupBounds t)) <> 0 ->
  rheight (innerBounds (groupBounds t)) <> 0 ->
  centeredScaling t = false ->
  handles t (HScale hd) = drawHandles_scale (groupBounds t) hd ->
  fst (SCALE_COMPONENTS hd) <> 0%Z ->
  snd (SCALE_COMPONENTS hd) <> 0%Z ->
  Mat.apply (scaleGroup_matrix t hd p) (handles t (HScale hd)) = p.
Proof.
  intros Hw Hh Hc Hpos Hx Hy.
  rewrite (@scaled_handle_position t hd p Hw Hh Hc Hpos). cbv zeta.
  destruct (IZR_sq_component hd) as [Hx1 Hy1].
  rewrite (Hx1 Hx), (Hy1 Hy), !Rmult_1_l.
  symmetry. apply frame_point_coordinates.
Qed.

Lemma scaleGroup_corner_follows_pointer_witness :
  rwidth (innerBounds (groupBounds drawn_rectangle)) <> 0 /\
  rheight (innerBounds (groupBounds drawn_rectangle)) <> 0 /\
  centeredScaling drawn_rectangle = false /\
  handles drawn_rectangle (HScale topLeft)
  = drawHandles_scale (groupBounds drawn_rectangle) topLeft /\
  fst (SCALE_COMPONENTS topLeft) <> 0%Z /\
  snd (SCALE_COMPONENTS topLeft) <> 0%Z /\
  Mat.apply (scaleGroup_matrix drawn_rectangle topLeft (mkPoint (-20) 10))
    (handles drawn_rectangle (HScale topLeft))
  = mkPoint (-20) 10.
Proof.
  destruct drawn_rectangle_nondegenerate as [Hw Hh].
  assert (Hx : fst (SCALE_COMPONENTS topLeft) <> 0%Z) by (simpl; lia).
  assert (Hy : snd (SCALE_COMPONENTS topLeft) <> 0%Z) by (simpl; lia).
  split; [exact Hw | split; [exact Hh | split; [reflexivity |]]].
  split; [reflexivity | split; [exact Hx | split; [exact Hy |]]].
  exact (@scaleGroup_corner_follows_pointer drawn_rectangle topLeft
           (mkPoint (-20) 10) Hw Hh eq_refl eq_refl Hx Hy).
Defined.

(** X8: with centred scaling, a scale handle drawn at its place moves
    by only half of the pointer's displacement along the axes it drives,
    so a corner handle ends midway between its old place and the
    pointer. *)
Theorem scaleGroup_centred_moves_handle_halfway (t : Transformer)
    (hd : ScaleHandle) (p : Point) :
  rwidth (innerBounds (groupBounds t)) <> 0 ->
  rheight (innerBounds (groupBounds t)) <> 0 ->
  centeredScaling t = true ->
  handles t (HScale hd) = drawHandles_scale (groupBounds t) hd ->
  let a := rotation (groupBounds t) in
  let xDir := IZR (fst (SCALE_COMPONENTS hd)) in
  let yDir := IZR (snd (SCALE_COMPONENTS hd)) in
  let dx := px p - px (handles t (HScale hd)) in
  let dy := py p - py (handles t (HScale hd)) in
  let image :=
    Mat.apply (scaleGroup_matrix t hd p) (handles t (HScale hd)) in
  image
  = frame_point (handles t (HScale hd)) a
      (xDir * xDir * (dx * cos a + dy * sin a) / 2)
      (yDir * yDir * (dy * cos a - dx * sin a) / 2) /\
  (fst (SCALE_COMPONENTS hd) <> 0%Z ->
   snd (SCALE_COMPONENTS hd) <> 0%Z ->
   image = mkPoint ((px (handles t (HScale hd)) + px p) / 2)
                   ((py (handles t (HScale hd)) + py p) / 2)).
Proof.
  intros Hw Hh Hc Hpos a xDir yDir dx dy image.
  assert (Himage :
    image = frame_point (handles t (HScale hd)) a
              (xDir * xDir * (dx * cos a + dy * sin a) / 2)
              (yDir * yDir * (dy * cos a - dx * sin a) / 2)).
  { subst image a xDir yDir dx dy.
    rewrite Hpos at 1 2. rewrite drawHandles_scale_in_frame.
    rewrite (@scale_matrix_in_frame t hd p Hw Hh), Hc, frame_point_shift.
    apply frame_point_ext; field; assumption. }
  split; [exact Himage |].
  intros Hx Hy. rewrite Himage.
  destruct (IZR_sq_component hd) as [Hx1 Hy1].
  fold xDir in Hx1. fold yDir in Hy1.
  rewrite (Hx1 Hx), (Hy1 Hy), !Rmult_1_l.
  transitivity
    (mkPoint
       ((px (handles t (HScale hd))
         + px (frame_point (handles t (HScale hd)) a
                 (dx * cos a + dy * sin a) (dy * cos a - dx * sin a))) / 2)
       ((py (handles t (HScale hd))
         + py (frame_point (handles t (HScale hd)) a
                 (dx * cos a + dy * sin a) (dy * cos a - dx * sin a))) / 2)).
  - unfold frame_point. apply point_eq; cbn [px py]; field.
  - unfold dx, dy, a.
    rewrite <- (frame_point_coordinates (handles t (HScale hd))
                  (rotation (groupBounds t)) p).
    reflexivity.
Qed.

Lemma scaleGroup_centred_moves_handle_halfway_witness :
  rwidth (innerBounds (groupBounds drawn_rectangle_centred)) <> 0 /\
  rheight (innerBounds (groupBounds drawn_rectangle_centred)) <> 0 /\
  centeredScaling drawn_rectangle_centred = true /\
  handles drawn_rectangle_centred (HScale bottomRight)
  = drawHandles_scale (groupBounds drawn_rectangle_centred) bottomRight /\
  Mat.apply
    (scaleGroup_matrix drawn_rectangle_centred bottomRight (mkPoint 150 50))
    (handles drawn_rectangle_centred (HScale bottomRight))
  = mkPoint 125 50.
Proof.
  destruct drawn_rectangle_nondegenerate as [Hw Hh].
  split; [exact Hw | split; [exact Hh | split; [reflexivity |]]].
  split; [reflexivity |].
  destruct (@scaleGroup_centred_moves_handle_halfway drawn_rectangle_centred
              bottomRight (mkPoint 150 50) Hw Hh eq_refl eq_refl) as [H _].
  rewrite H. apply point_eq; at_rotation_0; field.
Defined.

Lemma scale_chain_unit (m : Matrix) (o : Point) (angle : R) :
  Mat.translate
    (Mat.rotate
       (Mat.scale
          (Mat.rotate (Mat.translate m (- px o) (- py o)) (- angle))
          1 1)
       angle)
    (px o) (py o) = m.
Proof.
  pose proof (trig_one angle) as H.
  apply matrix_eq; simpl; rewrite cos_neg, sin_neg.
  - replace ((ma m * cos angle - mb m * - sin angle) * 1 * cos angle
             - (ma m * - sin angle + mb m * cos angle) * 1 * sin angle)
      with (ma m * (sin angle * sin angle + cos angle * cos angle)) by ring.
    rewrite H. ring.
  - replace ((ma m * cos angle - mb m * - sin angle) * 1 * sin angle
             + (ma m * - sin angle + mb m * cos angle) * 1 * cos angle)
      with (mb m * (sin angle * sin angle + cos angle * cos angle)) by ring.
    rewrite H. ring.
  - replace ((mc m * cos angle - md m * - sin angle) * 1 * cos angle
             - (mc m * - sin angle + md m * cos angle) * 1 * sin angle)
      with (mc m * (sin angle * sin angle + cos angle * cos angle)) by ring.
    rewrite H. ring.
  - replace ((mc m * cos angle - md m * - sin angle) * 1 * sin angle
             + (mc m * - sin angle + md m * cos angle) * 1 * cos angle)
      with (md m * (sin angle * sin angle + cos angle * cos angle)) by ring.
    rewrite H. ring.
  - replace (((mtx m + - px o) * cos angle - (mty m + - py o) * - sin angle)
             * 1 * cos angle
             - ((mtx m + - px o) * - sin angle + (mty m + - py o) * cos angle)
               * 1 * sin angle + px o)
      with ((mtx m - px o) * (sin angle * sin angle + cos angle * cos angle)
            + px o) by ring.
    rewrite H. ring.
  - replace (((mtx m + - px o) * cos angle - (mty m + - py o) * - sin angle)
             * 1 * sin angle
             + ((mtx m + - px o) * - sin angle + (mty m + - py o) * cos angle)
               * 1 * cos angle + py o)
      with ((mty m - py o) * (sin angle * sin angle + cos angle * cos angle)
            + py o) by ring.
    rewrite H. ring.
Qed.

(** X9: a pointer that sits exactly on the dragged scale handle builds
    the identity matrix, for every handle and with or without centred
    scaling, so the members keep their transforms. *)
Theorem scaleGroup_idle (t : Transformer) (hd : ScaleHandle) :
  rwidth (innerBounds (groupBounds t)) <> 0 ->
  rheight (innerBounds (groupBounds t)) <> 0 ->
  scaleGroup_matrix t hd (handles t (HScale hd)) = Mat.identity /\
  group (scaleGroup t hd (handles t (HScale hd))) = group t.
Proof.
  intros Hw Hh.
  assert (Hm : scaleGroup_matrix t hd (handles t (HScale hd)) = Mat.identity).
  { unfold scaleGroup_matrix. cbv zeta. rewrite !Rminus_diag.
    repeat match goal with
      | |- context [1 + (0 * ?a + 0 * ?b) * ?c / ?d] =>
          replace (1 + (0 * a + 0 * b) * c / d) with 1 by (field; assumption)
      end.
    destruct (centeredScaling t); destruct hd;
      cbn [SCALE_COMPONENTS fst snd Z.eqb Pos.eqb negb];
      rewrite ?scale_chain_unit; reflexivity. }
  split; [exact Hm |].
  unfold scaleGroup, prependTransform. rewrite Hm, updateGroupBounds_group.
  cbn [with_group group].
  induction (group t) as [| d g IH]; [reflexivity |].
  cbn [map]. rewrite multiplyTransform_identity, IH. reflexivity.
Qed.

Lemma scaleGroup_idle_witness :
  rwidth (innerBounds (groupBounds drawn_rectangle)) <> 0 /\
  rheight (innerBounds (groupBounds drawn_rectangle)) <> 0 /\
  scaleGroup_matrix drawn_rectangle topRight
    (handles drawn_rectangle (HScale topRight)) = Mat.identity /\
  group (scaleGroup drawn_rectangle topRight
           (handles drawn_rectangle (HScale topRight)))
  = group drawn_rectangle.
Proof.
  destruct drawn_rectangle_nondegenerate as [Hw Hh].
  split; [exact Hw | split; [exact Hh |]].
  exact (@scaleGroup_idle drawn_rectangle topRight Hw Hh).
Defined.

(** ** More on the angle snapper *)

Lemma rem_multiple (a m : R) :
  exists k : Z, JS.rem a m = a - IZR k * m /\
                (0 <= a / m -> (0 <= k)%Z) /\ (a / m < 0 -> (k <= 0)%Z).
Proof.
  unfold JS.rem, JS.trunc. destruct (Rle_dec 0 (a / m)) as [Hq | Hq].
  - exists (Int_part (a / m)). split; [ring |]. split; [| lra].
    intros _. apply le_IZR.
    destruct (base_Int_part (a / m)) as [H1 H2].
    destruct (Z_le_gt_dec 0 (Int_part (a / m))) as [Hz | Hz].
    + apply IZR_le. exact Hz.
    + exfalso. assert (Int_part (a / m) <= -1)%Z by lia.
      apply IZR_le in H. lra.
  - exists (- Int_part (- (a / m)))%Z. rewrite opp_IZR.
    split; [ring |]. split; [lra |].
    intros _. destruct (base_Int_part (- (a / m))) as [H1 H2].
    destruct (Z_le_gt_dec 0 (Int_part (- (a / m)))) as [Hz | Hz]; [lia |].
    exfalso. assert (Int_part (- (a / m)) <= -1)%Z by lia.
    apply IZR_le in H. lra.
Qed.

Lemma cos_sin_shift (x : R) (k : Z) :
  cos (x - IZR k * (PI * 2)) = cos x /\ sin (x - IZR k * (PI * 2)) = sin x.
Proof.
  destruct (Z_le_gt_dec 0 k) as [Hk | Hk].
  - rewrite <- (Z2Nat.id k Hk), <- INR_IZR_INZ.
    rewrite <- (cos_period (x - INR (Z.to_nat k) * (PI * 2)) (Z.to_nat k)).
    rewrite <- (sin_period (x - INR (Z.to_nat k) * (PI * 2)) (Z.to_nat k)).
    split; f_equal; ring.
  - assert (Hk' : (0 <= - k)%Z) by lia.
    replace (IZR k) with (- IZR (- k)) by (rewrite opp_IZR; ring).
    rewrite <- (Z2Nat.id (- k) Hk'), <- INR_IZR_INZ.
    rewrite <- (cos_period x (Z.to_nat (- k))).
    rewrite <- (sin_period x (Z.to_nat (- k))).
    split; f_equal; ring.
Qed.

(** X10: without snaps, [snapAngle] changes the angle by a whole number
    of turns: the result has the cosine and the sine of the input, lies
    strictly within one turn of zero and never has the opposite sign. *)
Theorem snapAngle_normalizes (angle tol : R) :
  let r := snapAngle angle tol None in
  (exists k : Z, r = angle - IZR k * (PI * 2)) /\
  cos r = cos angle /\ sin r = sin angle /\
  - (PI * 2) < r < PI * 2 /\
  (0 <= angle -> 0 <= r) /\ (angle <= 0 -> r <= 0).
Proof.
  intros r. subst r. unfold snapAngle.
  destruct (rem_multiple angle (PI * 2)) as (k & Hk & Hpos & Hneg).
  pose proof two_PI_pos as H2.
  pose proof (rem_bounds angle H2) as Hb.
  split; [exists k; exact Hk |].
  rewrite Hk in *. destruct (cos_sin_shift angle k) as [Hc Hs].
  split; [exact Hc | split; [exact Hs | split; [exact Hb |]]].
  rewrite <- Hk. unfold JS.rem.
  destruct (trunc_frac (angle / (PI * 2))) as [[Hq H] | [Hq H]];
    assert (Ha : angle = PI * 2 * (angle / (PI * 2))) by (field; lra);
    split; intros Hsign.
  - rewrite Ha at 1. nra.
  - assert (angle / (PI * 2) = 0).
    { assert (angle / (PI * 2) <= 0); [| lra].
      unfold Rdiv. assert (0 < / (PI * 2)) by (apply Rinv_0_lt_compat; lra).
      nra. }
    rewrite H0 in *. rewrite trunc_small by lra. lra.
  - exfalso. unfold Rdiv in Hq.
    assert (0 < / (PI * 2)) by (apply Rinv_0_lt_compat; lra). nra.
  - rewrite Ha at 1. nra.
Qed.

(** X11: the result of [snapAngle] is either the normalised angle itself
    or an entry of the snap set that lies within the tolerance of the
    normalised angle; it is never anything else. *)
Theorem snapAngle_result (angle tol : R) (snaps : list R) :
  let a := JS.rem angle (PI * 2) in
  let r := snapAngle angle tol (Some snaps) in
  r = a \/ (In r snaps /\ Rabs (a - r) <= tol /\ 0 <= tol).
Proof.
  intros a r. subst r. unfold snapAngle. fold a.
  destruct ((length snaps =? 1)%nat || JS.falsy tol); [left; reflexivity |].
  destruct (snapScan a tol snaps) as [s |] eqn:E; [| left; reflexivity].
  right. apply snapScan_In in E as [Hin Hs].
  pose proof (Rabs_pos (a - s)). repeat split; [assumption | assumption | lra].
Qed.

(** ** The direction of [Math.atan2] *)

Lemma sqrt_one_plus_sq (x y : R) :
  x <> 0 -> sqrt (1 + (y / x)²) = sqrt (x * x + y * y) / Rabs x.
Proof.
  intros Hx.
  assert (Habs : 0 < Rabs x) by (apply Rabs_pos_lt; exact Hx).
  assert (Hsq : Rabs x * Rabs x = x * x).
  { unfold Rabs. destruct (Rcase_abs x); ring. }
  assert (Hr : 0 <= sqrt (x * x + y * y)) by apply sqrt_pos.
  apply sqrt_lem_1.
  - unfold Rsqr. assert (0 <= y / x * (y / x)) by apply Rle_0_sqr. lra.
  - apply Rmult_le_pos; [exact Hr |]. left. apply Rinv_0_lt_compat. exact Habs.
  - unfold Rsqr, Rdiv.
    replace (sqrt (x * x + y * y) * / Rabs x * (sqrt (x * x + y * y) * / Rabs x))
      with (sqrt (x * x + y * y) * sqrt (x * x + y * y) * / (Rabs x * Rabs x))
      by (field; lra).
    rewrite sqrt_sqrt by nra. rewrite Hsq. field. exact Hx.
Qed.

(** The angle of [atan2] points along [(x, y)]. *)
Lemma atan2_polar (x y : R) :
  x <> 0 \/ y <> 0 ->
  exists r, 0 < r /\
            x = r * cos (JS.atan2 y x) /\ y = r * sin (JS.atan2 y x).
Proof.
  intros Hxy. exists (sqrt (x * x + y * y)).
  assert (Hr : 0 < sqrt (x * x + y * y)).
  { apply sqrt_lt_R0. destruct Hxy; nra. }
  split; [exact Hr |].
  unfold JS.atan2.
  destruct (Rlt_dec 0 x) as [Hx | Hx].
  - rewrite cos_atan, sin_atan, sqrt_one_plus_sq by lra.
    rewrite Rabs_pos_eq by lra. split; field; lra.
  - destruct (Rlt_dec x 0) as [Hx' | Hx'].
    + assert (Habs : Rabs x = - x) by (apply Rabs_left; exact Hx').
      destruct (Rle_dec 0 y).
      * rewrite neg_cos, neg_sin, cos_atan, sin_atan, sqrt_one_plus_sq by lra.
        rewrite Habs. split; field; lra.
      * rewrite cos_minus, sin_minus, cos_PI, sin_PI, cos_atan, sin_atan,
          sqrt_one_plus_sq by lra.
        rewrite Habs. split; field; lra.
    + assert (x = 0) by lra. subst x.
      assert (Hy : y <> 0) by (destruct Hxy; [lra | assumption]).
      replace (0 * 0 + y * y) with (y * y) in * by ring.
      destruct (Rlt_dec 0 y) as [Hy1 | Hy1].
      * rewrite cos_PI2, sin_PI2, sqrt_square by lra. lra.
      * destruct (Rlt_dec y 0) as [Hy2 | Hy2]; [| lra].
        rewrite cos_neg, sin_neg, cos_PI2, sin_PI2.
        replace (y * y) with (- y * - y) by ring.
        rewrite sqrt_square by lra. lra.
Qed.

Lemma snapAngle_zero_tolerance (angle : R) (snaps : option (list R)) :
  snapAngle angle 0 snaps = JS.rem angle (PI * 2).
Proof.
  unfold snapAngle. destruct snaps as [l |]; [| reflexivity].
  assert (E : JS.falsy 0 = true) by (apply falsy_true; reflexivity).
  rewrite E, orb_true_r. reflexivity.
Qed.

Lemma apply_rotation_about (c q : Point) (delta : R) :
  Mat.apply
    (Mat.translate
       (Mat.rotate (Mat.translate Mat.identity (- px c) (- py c)) delta)
       (px c) (py c)) q
  = mkPoint (px c + ((px q - px c) * cos delta - (py q - py c) * sin delta))
            (py c + ((px q - px c) * sin delta + (py q - py c) * cos delta)).
Proof. apply point_eq; simpl; ring. Qed.

(** X12: with the rotation snap tolerance at zero, [rotateGroup] turns
    the rotator handle about the centre of the bounds onto the ray from
    the centre through the pointer, at its old distance from the centre. *)
Theorem rotateGroup_follows_pointer (t : Transformer) (p : Point) :
  let c := OB.center (groupBounds t) in
  let o := handles t (HRotate rotator) in
  rotationSnapTolerance t = 0 ->
  px o <> px c \/ py o <> py c ->
  px p <> px c \/ py p <> py c ->
  exists matrix k,
    group (rotateGroup t rotator p)
    = map (fun d => multiplyTransform d matrix) (group t) /\
    0 < k /\
    Mat.apply matrix o
    = mkPoint (px c + k * (px p - px c)) (py c + k * (py p - py c)) /\
    (px (Mat.apply matrix o) - px c) ^ 2 + (py (Mat.apply matrix o) - py c) ^ 2
    = (px o - px c) ^ 2 + (py o - py c) ^ 2.
Proof.
  intros c o Htol Ho Hp.
  destruct (@atan2_polar (px o - px c) (py o - py c)) as (ro & Hro & Hox & Hoy);
    [destruct Ho; [left | right]; lra |].
  destruct (@atan2_polar (px p - px c) (py p - py c)) as (rp & Hrp & Hpx & Hpy);
    [destruct Hp; [left | right]; lra |].
  set (ao := JS.atan2 (py o - py c) (px o - px c)) in *.
  set (ap := JS.atan2 (py p - py c) (px p - px c)) in *.
  set (delta := rotateGroup_newRotation t rotator p - rotation (groupBounds t)).
  assert (Hd : cos delta = cos (ap - ao) /\ sin delta = sin (ap - ao)).
  { unfold delta, rotateGroup_newRotation. fold c o ao ap.
    rewrite Htol, snapAngle_zero_tolerance.
    destruct (rem_multiple (rotation (groupBounds t) + (ap - ao)) (PI * 2))
      as (k & Hk & _).
    rewrite Hk.
    replace (rotation (groupBounds t) + (ap - ao) - IZR k * (PI * 2)
             - rotation (groupBounds t))
      with (ap - ao - IZR k * (PI * 2)) by ring.
    apply cos_sin_shift. }
  destruct Hd as [Hcos Hsin].
  assert (Himage :
    Mat.apply
      (Mat.translate
         (Mat.rotate (Mat.translate Mat.identity (- px c) (- py c)) delta)
         (px c) (py c)) o
    = mkPoint (px c + ro * cos ap) (py c + ro * sin ap)).
  { pose proof (trig_one ao) as H1.
    rewrite apply_rotation_about, Hcos, Hsin, cos_minus, sin_minus, Hox, Hoy.
    apply point_eq; cbn [px py].
    - replace (ro * cos ao * (cos ap * cos ao + sin ap * sin ao)
               - ro * sin ao * (sin ap * cos ao - cos ap * sin ao))
        with (ro * cos ap * (sin ao * sin ao + cos ao * cos ao)) by ring.
      rewrite H1. ring.
    - replace (ro * cos ao * (sin ap * cos ao - cos ap * sin ao)
               + ro * sin ao * (cos ap * cos ao + sin ap * sin ao))
        with (ro * sin ap * (sin ao * sin ao + cos ao * cos ao)) by ring.
      rewrite H1. ring. }
  exists (Mat.translate
            (Mat.rotate (Mat.translate Mat.identity (- px c) (- py c)) delta)
            (px c) (py c)), (ro / rp).
  split; [reflexivity |].
  split; [apply Rdiv_lt_0_compat; assumption |].
  rewrite Himage. cbn [px py]. split.
  - rewrite Hpx, Hpy. apply point_eq; cbn [px py]; field; lra.
  - pose proof (trig_one ao) as H1. pose proof (trig_one ap) as H2.
    rewrite Hox, Hoy.
    replace ((px c + ro * cos ap - px c) ^ 2 + (py c + ro * sin ap - py c) ^ 2)
      with (ro * ro * (sin ap * sin ap + cos ap * cos ap)) by ring.
    replace ((ro * cos ao) ^ 2 + (ro * sin ao) ^ 2)
      with (ro * ro * (sin ao * sin ao + cos ao * cos ao)) by ring.
    rewrite H1, H2. reflexivity.
Qed.

(** ** The scan of [calculateGroupOrientedBounds] *)

Lemma scanVertex_extremes (matrix : Matrix) (e : Extremes) (q : Point) :
  let e' := scanVertex matrix e q in
  minX e' = Rmin (px (Mat.apply matrix q)) (minX e) /\
  minY e' = Rmin (py (Mat.apply matrix q)) (minY e) /\
  maxX e' = Rmax (px (Mat.apply matrix q)) (maxX e) /\
  maxY e' = Rmax (py (Mat.apply matrix q)) (maxY e).
Proof.
  unfold scanVertex, JS.ltb, Rmin, Rmax. cbn [minX minY maxX maxY].
  repeat split;
    repeat match goal with
      | |- context [Rlt_dec ?a ?b] => destruct (Rlt_dec a b)
      | |- context [Rle_dec ?a ?b] => destruct (Rle_dec a b)
      end; lra.
Qed.

(** The running extremes only move outwards, they enclose every scanned
    vertex, and each is the starting value or comes from a vertex. *)
Lemma scan_fold (matrix : Matrix) (frames : list Point) (e : Extremes) :
  let e' := fold_left (scanVertex matrix) frames e in
  (minX e' <= minX e /\ minY e' <= minY e /\
   maxX e <= maxX e' /\ maxY e <= maxY e') /\
  (forall q, In q frames ->
     minX e' <= px (Mat.apply matrix q) <= maxX e' /\
     minY e' <= py (Mat.apply matrix q) <= maxY e') /\
  (minX e' = minX e \/
   exists q, In q frames /\ minX e' = px (Mat.apply matrix q)) /\
  (minY e' = minY e \/
   exists q, In q frames /\ minY e' = py (Mat.apply matrix q)) /\
  (maxX e' = maxX e \/
   exists q, In q frames /\ maxX e' = px (Mat.apply matrix q)) /\
  (maxY e' = maxY e \/
   exists q, In q frames /\ maxY e' = py (Mat.apply matrix q)).
Proof.
  revert e. induction frames as [| v frames IH]; intros e; cbn [fold_left].
  - cbv zeta. split; [repeat split; lra |].
    split; [intros q [] |]. repeat split; left; reflexivity.
  - specialize (IH (scanVertex matrix e v)). cbv zeta in IH |- *.
    destruct (scanVertex_extremes matrix e v) as (H1 & H2 & H3 & H4).
    cbv zeta in H1, H2, H3, H4.
    set (e1 := scanVertex matrix e v) in *.
    set (e' := fold_left (scanVertex matrix) frames e1) in *.
    destruct IH as ((I1 & I2 & I3 & I4) & Iin & J1 & J2 & J3 & J4).
    pose proof (Rmin_l (px (Mat.apply matrix v)) (minX e)).
    pose proof (Rmin_r (px (Mat.apply matrix v)) (minX e)).
    pose proof (Rmin_l (py (Mat.apply matrix v)) (minY e)).
    pose proof (Rmin_r (py (Mat.apply matrix v)) (minY e)).
    pose proof (Rmax_l (px (Mat.apply matrix v)) (maxX e)).
    pose proof (Rmax_r (px (Mat.apply matrix v)) (maxX e)).
    pose proof (Rmax_l (py (Mat.apply matrix v)) (maxY e)).
    pose proof (Rmax_r (py (Mat.apply matrix v)) (maxY e)).
    split; [repeat split; lra |].
    split.
    { intros q [<- | Hq]; [repeat split; lra | apply Iin; exact Hq]. }
    repeat split.
    + destruct J1 as [J | (q & Hq & J)].
      * rewrite J, H1. unfold Rmin.
        destruct (Rle_dec (px (Mat.apply matrix v)) (minX e));
          [right; exists v; split; [left; reflexivity | reflexivity]
          | left; reflexivity].
      * right. exists q. split; [right; exact Hq | exact J].
    + destruct J2 as [J | (q & Hq & J)].
      * rewrite J, H2. unfold Rmin.
        destruct (Rle_dec (py (Mat.apply matrix v)) (minY e));
          [right; exists v; split; [left; reflexivity | reflexivity]
          | left; reflexivity].
      * right. exists q. split; [right; exact Hq | exact J].
    + destruct J3 as [J | (q & Hq & J)].
      * rewrite J, H3. unfold Rmax.
        destruct (Rle_dec (px (Mat.apply matrix v)) (maxX e));
          [left; reflexivity
          | right; exists v; split; [left; reflexivity | reflexivity]].
      * right. exists q. split; [right; exact Hq | exact J].
    + destruct J4 as [J | (q & Hq & J)].
      * rewrite J, H4. unfold Rmax.
        destruct (Rle_dec (py (Mat.apply matrix v)) (maxY e));
          [left; reflexivity
          | right; exists v; split; [left; reflexivity | reflexivity]].
      * right. exists q. split; [right; exact Hq | exact J].
Qed.

Lemma applyInverse_unrotation (r : R) (q : Point) :
  Mat.applyInverse (Mat.rotate Mat.identity (- r)) q
  = Mat.apply (Mat.rotate Mat.identity r) q.
Proof.
  pose proof (trig_one r) as H.
  assert (Hdet : (1 * cos r - 0 * - sin r) * (0 * - sin r + 1 * cos r)
                 + (0 * cos r - 1 * - sin r) * - (1 * - sin r + 0 * cos r) = 1).
  { transitivity (sin r * sin r + cos r * cos r); [ring | exact H]. }
  apply point_eq; unfold Mat.applyInverse; simpl;
    rewrite cos_neg, sin_neg, Hdet; field.
Qed.

Lemma apply_rotation (a : R) (q : Point) :
  Mat.apply (Mat.rotate Mat.identity a) q
  = mkPoint (px q * cos a - py q * sin a) (px q * sin a + py q * cos a).
Proof. apply point_eq; simpl; ring. Qed.

Lemma unrotate_frame_point (r : R) (c0 : Point) (u v : R) :
  Mat.apply (Mat.rotate Mat.identity (- r))
    (frame_point (Mat.apply (Mat.rotate Mat.identity r) c0) r u v)
  = mkPoint (px c0 + u) (py c0 + v).
Proof.
  pose proof (trig_one r) as H. unfold frame_point.
  rewrite !apply_rotation, cos_neg, sin_neg.
  apply point_eq; cbn [px py].
  - replace ((px c0 * cos r - py c0 * sin r + (u * cos r - v * sin r)) * cos r
             - (px c0 * sin r + py c0 * cos r + (u * sin r + v * cos r))
               * - sin r)
      with ((px c0 + u) * (sin r * sin r + cos r * cos r)) by ring.
    rewrite H. ring.
  - replace ((px c0 * cos r - py c0 * sin r + (u * cos r - v * sin r))
             * - sin r
             + (px c0 * sin r + py c0 * cos r + (u * sin r + v * cos r))
               * cos r)
      with ((py c0 + v) * (sin r * sin r + cos r * cos r)) by ring.
    rewrite H. ring.
Qed.

Lemma unrotate_rotate (r : R) (q : Point) :
  Mat.apply (Mat.rotate Mat.identity (- r))
    (Mat.apply (Mat.rotate Mat.identity r) q) = q.
Proof.
  pose proof (unrotate_frame_point r q 0 0) as H.
  replace (frame_point (Mat.apply (Mat.rotate Mat.identity r) q) r 0 0)
    with (Mat.apply (Mat.rotate Mat.identity r) q) in H
    by (unfold frame_point; apply point_eq; cbn [px py]; ring).
  rewrite H. apply point_eq; cbn [px py]; ring.
Qed.

Lemma center_set_center (b : OrientedBounds) (p : Point) :
  OB.center (OB.set_center b p) = p.
Proof. unfold OB.center, OB.set_center. apply point_eq; simpl; field. Qed.

Lemma group_bounds_corners (g : list DisplayObject) (r : R) :
  let matrix := Mat.rotate Mat.identity (- r) in
  let e :=
    fold_left (scanVertex matrix)
      (flat_map (fun d => calculateTransformedCorners d (worldTransform d)) g)
      (mkExt JS.MAX_VALUE JS.MAX_VALUE (- JS.MAX_VALUE) (- JS.MAX_VALUE)) in
  let b := calculateGroupOrientedBounds g r in
  Mat.apply matrix (OB.topLeft b) = mkPoint (minX e) (minY e) /\
  Mat.apply matrix (OB.topRight b) = mkPoint (maxX e) (minY e) /\
  Mat.apply matrix (OB.bottomLeft b) = mkPoint (minX e) (maxY e) /\
  Mat.apply matrix (OB.bottomRight b) = mkPoint (maxX e) (maxY e) /\
  Mat.apply matrix (OB.center b)
  = mkPoint ((minX e + maxX e) / 2) ((minY e + maxY e) / 2) /\
  rwidth (innerBounds b) = maxX e - minX e /\
  rheight (innerBounds b) = maxY e - minY e.
Proof.
  intros matrix e b.
  destruct (bounds_corners_in_frame b) as (Htl & Htr & Hbl & Hbr & _).
  cbv zeta in Htl, Htr, Hbl, Hbr.
  assert (Hw : rwidth (innerBounds b) = maxX e - minX e) by reflexivity.
  assert (Hh : rheight (innerBounds b) = maxY e - minY e) by reflexivity.
  assert (Hr : rotation b = r) by reflexivity.
  assert (Hcb : OB.center b
                = Mat.apply (Mat.rotate Mat.identity r)
                    (mkPoint (minX e + (maxX e - minX e) / 2)
                             (minY e + (maxY e - minY e) / 2))).
  { unfold b, calculateGroupOrientedBounds. fold matrix. fold e.
    rewrite center_set_center. unfold matrix.
    rewrite applyInverse_unrotation. reflexivity. }
  rewrite Htl, Htr, Hbl, Hbr, Hw, Hh, Hr, Hcb. unfold matrix.
  rewrite !unrotate_frame_point, unrotate_rotate.
  repeat split; try reflexivity; apply point_eq; cbn [px py]; field.
Qed.

(** X13: for a group that is not empty, the box that
    [calculateGroupOrientedBounds] returns is the
    min/max box of the scan, turned back by the reference rotation: taken
    through the un-rotation matrix, its four corners are the corners of
    the axis-aligned rectangle from [(minX, minY)] to [(maxX, maxY)], and
    its centre is that rectangle's centre. *)
Theorem calculateGroupOrientedBounds_corners (g : list DisplayObject) (r : R) :
  let matrix := Mat.rotate Mat.identity (- r) in
  let e :=
    fold_left (scanVertex matrix)
      (flat_map (fun d => calculateTransformedCorners d (worldTransform d)) g)
      (mkExt JS.MAX_VALUE JS.MAX_VALUE (- JS.MAX_VALUE) (- JS.MAX_VALUE)) in
  let b := calculateGroupOrientedBounds g r in
  g <> [] ->
  Mat.apply matrix (OB.topLeft b) = mkPoint (minX e) (minY e) /\
  Mat.apply matrix (OB.topRight b) = mkPoint (maxX e) (minY e) /\
  Mat.apply matrix (OB.bottomLeft b) = mkPoint (minX e) (maxY e) /\
  Mat.apply matrix (OB.bottomRight b) = mkPoint (maxX e) (maxY e) /\
  Mat.apply matrix (OB.center b)
  = mkPoint ((minX e + maxX e) / 2) ((minY e + maxY e) / 2) /\
  rwidth (innerBounds b) = maxX e - minX e /\
  rheight (innerBounds b) = maxY e - minY e.
Proof. intros matrix e b _. exact (@group_bounds_corners g r). Qed.

Lemma rectangle_scan_extremes :
  fold_left (scanVertex (Mat.rotate Mat.identity (- 0)))
    (flat_map (fun d => calculateTransformedCorners d (worldTransform d))
       [rectangle_100_50])
    (mkExt JS.MAX_VALUE JS.MAX_VALUE (- JS.MAX_VALUE) (- JS.MAX_VALUE))
  = mkExt 0 0 100 50.
Proof.
  assert (Hframe : calculateTransformedCorners rectangle_100_50
                     (worldTransform rectangle_100_50)
                   = [mkPoint 0 0; mkPoint 100 0; mkPoint 100 50;
                      mkPoint 0 50]).
  { unfold calculateTransformedCorners. simpl.
    repeat (f_equal; try (apply point_eq; simpl; ring)). }
  cbn [flat_map]. rewrite Hframe, rotate_identity_0.
  cbn [app fold_left].
  pose proof MAX_VALUE_large as Hmax.
  scan_vertices. reflexivity.
Qed.

Lemma calculateGroupOrientedBounds_corners_witness :
  [rectangle_100_50] <> [] /\
  Mat.apply (Mat.rotate Mat.identity (- 0))
    (OB.bottomRight (calculateGroupOrientedBounds [rectangle_100_50] 0))
  = mkPoint 100 50.
Proof.
  assert (Hg : [rectangle_100_50] <> []) by discriminate.
  split; [exact Hg |].
  destruct (@calculateGroupOrientedBounds_corners [rectangle_100_50] 0 Hg)
    as (_ & _ & _ & H & _).
  rewrite H, rectangle_scan_extremes. reflexivity.
Defined.

Lemma group_bounds_tight (g : list DisplayObject) (r : R) :
  let unrotate := Mat.apply (Mat.rotate Mat.identity (- r)) in
  let frames :=
    flat_map (fun d => calculateTransformedCorners d (worldTransform d)) g in
  let b := calculateGroupOrientedBounds g r in
  let lo := unrotate (OB.topLeft b) in
  let hi := unrotate (OB.bottomRight b) in
  g <> [] ->
  (forall q, In q frames ->
     - JS.MAX_VALUE <= px (unrotate q) <= JS.MAX_VALUE /\
     - JS.MAX_VALUE <= py (unrotate q) <= JS.MAX_VALUE) ->
  (forall q, In q frames ->
     px lo <= px (unrotate q) <= px hi /\
     py lo <= py (unrotate q) <= py hi) /\
  (exists q, In q frames /\ px (unrotate q) = px lo) /\
  (exists q, In q frames /\ py (unrotate q) = py lo) /\
  (exists q, In q frames /\ px (unrotate q) = px hi) /\
  (exists q, In q frames /\ py (unrotate q) = py hi) /\
  0 <= rwidth (innerBounds b) /\
  0 <= rheight (innerBounds b).
Proof.
  intros unrotate frames b lo hi Hg Hfinite.
  destruct (group_bounds_corners g r)
    as (Htl & _ & _ & Hbr & _ & Hw & Hh).
  cbv zeta in Htl, Hbr, Hw, Hh. fold frames in Htl, Hbr, Hw, Hh.
  fold b in Htl, Hbr, Hw, Hh.
  pose proof (scan_fold (Mat.rotate Mat.identity (- r)) frames
                (mkExt JS.MAX_VALUE JS.MAX_VALUE
                   (- JS.MAX_VALUE) (- JS.MAX_VALUE))) as Hscan.
  cbv zeta in Hscan. cbn [minX minY maxX maxY] in Hscan.
  set (e := fold_left (scanVertex (Mat.rotate Mat.identity (- r))) frames
              (mkExt JS.MAX_VALUE JS.MAX_VALUE
                 (- JS.MAX_VALUE) (- JS.MAX_VALUE))) in *.
  destruct Hscan as (_ & Hin & J1 & J2 & J3 & J4).
  assert (Hne : exists q0, In q0 frames).
  { destruct g as [| d g']; [contradiction |].
    eexists. unfold frames. cbn [flat_map]. apply in_or_app. left.
    unfold calculateTransformedCorners. left. reflexivity. }
  destruct Hne as [q0 Hq0].
  destruct (Hin q0 Hq0) as [Hx0 Hy0]. destruct (Hfinite q0 Hq0) as [Fx0 Fy0].
  fold (unrotate q0) in Hx0, Hy0.
  unfold lo, hi, unrotate. rewrite Htl, Hbr, Hw, Hh. cbn [px py].
  split; [exact Hin |].
  split.
  { destruct J1 as [J | (q & Hq & J)]; [| exists q; auto].
    exists q0. split; [exact Hq0 |]. fold (unrotate q0). lra. }
  split.
  { destruct J2 as [J | (q & Hq & J)]; [| exists q; auto].
    exists q0. split; [exact Hq0 |]. fold (unrotate q0). lra. }
  split.
  { destruct J3 as [J | (q & Hq & J)]; [| exists q; auto].
    exists q0. split; [exact Hq0 |]. fold (unrotate q0). lra. }
  split.
  { destruct J4 as [J | (q & Hq & J)]; [| exists q; auto].
    exists q0. split; [exact Hq0 |]. fold (unrotate q0). lra. }
  split; lra.
Qed.

(** X14: for a group that is not empty and whose un-rotated frame
    vertices are within [Number.MAX_VALUE] of zero, as every finite
    double is, the returned box is the tightest one in the rotated frame:
    every frame vertex lies between the un-rotated top-left and
    bottom-right corners, each of the four sides touches a vertex, and the
    width and the height are not negative. *)
Theorem calculateGroupOrientedBounds_tight (g : list DisplayObject) (r : R) :
  let unrotate := Mat.apply (Mat.rotate Mat.identity (- r)) in
  let frames :=
    flat_map (fun d => calculateTransformedCorners d (worldTransform d)) g in
  let b := calculateGroupOrientedBounds g r in
  let lo := unrotate (OB.topLeft b) in
  let hi := unrotate (OB.bottomRight b) in
  g <> [] ->
  (forall q, In q frames ->
     - JS.MAX_VALUE <= px (unrotate q) <= JS.MAX_VALUE /\
     - JS.MAX_VALUE <= py (unrotate q) <= JS.MAX_VALUE) ->
  (forall q, In q frames ->
     px lo <= px (unrotate q) <= px hi /\
     py lo <= py (unrotate q) <= py hi) /\
  (exists q, In q frames /\ px (unrotate q) = px lo) /\
  (exists q, In q frames /\ py (unrotate q) = py lo) /\
  (exists q, In q frames /\ px (unrotate q) = px hi) /\
  (exists q, In q frames /\ py (unrotate q) = py hi) /\
  0 <= rwidth (innerBounds b) /\
  0 <= rheight (innerBounds b).
Proof. exact (@group_bounds_tight g r). Qed.

Lemma rectangle_frames_finite (q : Point) :
  In q (flat_map (fun d => calculateTransformedCorners d (worldTransform d))
          [rectangle_100_50]) ->
  - JS.MAX_VALUE <= px (Mat.apply (Mat.rotate Mat.identity (- 0)) q)
    <= JS.MAX_VALUE /\
  - JS.MAX_VALUE <= py (Mat.apply (Mat.rotate Mat.identity (- 0)) q)
    <= JS.MAX_VALUE.
Proof.
  pose proof MAX_VALUE_large as Hmax.
  rewrite rotate_identity_0, apply_identity.
  cbn [flat_map rectangle_100_50 app calculateTransformedCorners
       worldTransform localBounds rx ry rwidth rheight].
  rewrite !apply_identity.
  intros [<- | [<- | [<- | [<- | []]]]]; cbn [px py]; lra.
Qed.

Lemma calculateGroupOrientedBounds_tight_witness :
  [rectangle_100_50] <> [] /\
  (forall q,
     In q (flat_map (fun d => calculateTransformedCorners d (worldTransform d))
             [rectangle_100_50]) ->
     - JS.MAX_VALUE <= px (Mat.apply (Mat.rotate Mat.identity (- 0)) q)
       <= JS.MAX_VALUE /\
     - JS.MAX_VALUE <= py (Mat.apply (Mat.rotate Mat.identity (- 0)) q)
       <= JS.MAX_VALUE) /\
  0 <= rwidth (innerBounds (calculateGroupOrientedBounds [rectangle_100_50] 0)) /\
  0 <= rheight (innerBounds (calculateGroupOrientedBounds [rectangle_100_50] 0)).
Proof.
  assert (Hg : [rectangle_100_50] <> []) by discriminate.
  split; [exact Hg | split; [exact rectangle_frames_finite |]].
  destruct (@calculateGroupOrientedBounds_tight [rectangle_100_50] 0 Hg
              rectangle_frames_finite) as (_ & _ & _ & _ & _ & Hw & Hh).
  split; [exact Hw | exact Hh].
Defined.

Lemma rotate_unrotate (r : R) (q : Point) :
  Mat.apply (Mat.rotate Mat.identity r)
    (Mat.apply (Mat.rotate Mat.identity (- r)) q) = q.
Proof.
  pose proof (unrotate_rotate (- r) q) as H.
  rewrite Ropp_involutive in H. exact H.
Qed.

Lemma unrotate_translated (r : R) (delta q : Point) :
  Mat.apply (Mat.rotate Mat.identity (- r))
    (Mat.apply (Mat.translate Mat.identity (px delta) (py delta)) q)
  = mkPoint
      (px (Mat.apply (Mat.rotate Mat.identity (- r)) q)
       + px (Mat.apply (Mat.rotate Mat.identity (- r)) delta))
      (py (Mat.apply (Mat.rotate Mat.identity (- r)) q)
       + py (Mat.apply (Mat.rotate Mat.identity (- r)) delta)).
Proof. apply point_eq; simpl; ring. Qed.

(** X15: translating a group translates its measured bounds.  When the
    un-rotated frame vertices are within [Number.MAX_VALUE] of zero before
    and after the move, [translateGroup] leaves the bounds with the width,
    the height and the rotation that the same measurement gives before the
    move, and with the centre moved by [delta]. *)
Theorem translateGroup_moves_bounds (t : Transformer) (delta : Point) :
  let r := rotation (groupBounds t) in
  let unrotate := Mat.apply (Mat.rotate Mat.identity (- r)) in
  let frames g :=
    flat_map (fun d => calculateTransformedCorners d (worldTransform d)) g in
  let finite g :=
    forall q, In q (frames g) ->
      - JS.MAX_VALUE <= px (unrotate q) <= JS.MAX_VALUE /\
      - JS.MAX_VALUE <= py (unrotate q) <= JS.MAX_VALUE in
  let before := calculateGroupOrientedBounds (group t) r in
  let after := groupBounds (translateGroup t delta) in
  group t <> [] ->
  finite (group t) ->
  finite (group (translateGroup t delta)) ->
  rotation after = rotation before /\
  rwidth (innerBounds after) = rwidth (innerBounds before) /\
  rheight (innerBounds after) = rheight (innerBounds before) /\
  OB.center after
  = mkPoint (px (OB.center before) + px delta)
            (py (OB.center before) + py delta).
Proof.
  intros r unrotate frames finite before after Hg Hfin Hfin'.
  set (T := Mat.translate Mat.identity (px delta) (py delta)).
  set (g' := group (translateGroup t delta)) in *.
  assert (Hafter : after = calculateGroupOrientedBounds g' r) by reflexivity.
  assert (Hframes : frames g' = map (Mat.apply T) (frames (group t))).
  { unfold g', translateGroup. apply frames_of_moved_group. }
  assert (Hg' : g' <> []).
  { unfold g', translateGroup, prependTransform. rewrite updateGroupBounds_group.
    cbn [with_group group]. destruct (group t); [contradiction | discriminate]. }
  destruct (@group_bounds_tight (group t) r Hg Hfin)
    as (Hin & (q1 & Hq1 & E1) & (q2 & Hq2 & E2) & (q3 & Hq3 & E3)
        & (q4 & Hq4 & E4) & _).
  destruct (@group_bounds_tight g' r Hg' Hfin')
    as (Hin' & (q1' & Hq1' & E1') & (q2' & Hq2' & E2') & (q3' & Hq3' & E3')
        & (q4' & Hq4' & E4') & _).
  destruct (group_bounds_corners (group t) r)
    as (Htl & _ & _ & Hbr & Hc & Hw & Hh).
  destruct (group_bounds_corners g' r)
    as (Htl' & _ & _ & Hbr' & Hc' & Hw' & Hh').
  cbv zeta in Htl, Hbr, Hc, Hw, Hh, Htl', Hbr', Hc', Hw', Hh'.
  fold before in Htl, Hbr, Hc, Hw, Hh, Hin, E1, E2, E3, E4.
  rewrite <- Hafter in Htl', Hbr', Hc', Hw', Hh', Hin', E1', E2', E3', E4'.
  fold unrotate in Htl, Hbr, Hc, Htl', Hbr', Hc', Hin, Hin',
    E1, E2, E3, E4, E1', E2', E3', E4'.
  change (flat_map (fun d => calculateTransformedCorners d (worldTransform d))
            (group t)) with (frames (group t)) in *.
  change (flat_map (fun d => calculateTransformedCorners d (worldTransform d))
            g') with (frames g') in *.
  set (e := fold_left (scanVertex (Mat.rotate Mat.identity (- r)))
              (frames (group t)) _) in *.
  set (e' := fold_left (scanVertex (Mat.rotate Mat.identity (- r)))
               (frames g') _) in *.
  assert (L1 : px (unrotate (OB.topLeft before)) = minX e)
    by (rewrite Htl; reflexivity).
  assert (L2 : py (unrotate (OB.topLeft before)) = minY e)
    by (rewrite Htl; reflexivity).
  assert (L3 : px (unrotate (OB.bottomRight before)) = maxX e)
    by (rewrite Hbr; reflexivity).
  assert (L4 : py (unrotate (OB.bottomRight before)) = maxY e)
    by (rewrite Hbr; reflexivity).
  assert (L1' : px (unrotate (OB.topLeft after)) = minX e')
    by (rewrite Htl'; reflexivity).
  assert (L2' : py (unrotate (OB.topLeft after)) = minY e')
    by (rewrite Htl'; reflexivity).
  assert (L3' : px (unrotate (OB.bottomRight after)) = maxX e')
    by (rewrite Hbr'; reflexivity).
  assert (L4' : py (unrotate (OB.bottomRight after)) = maxY e')
    by (rewrite Hbr'; reflexivity).
  assert (Hshift : forall q, unrotate (Mat.apply T q)
                             = mkPoint (px (unrotate q) + px (unrotate delta))
                                       (py (unrotate q) + py (unrotate delta)))
    by (intros q; apply unrotate_translated).
  assert (Hmoved : forall q, In q (frames (group t)) ->
                             In (Mat.apply T q) (frames g'))
    by (intros q Hq; rewrite Hframes; apply in_map; exact Hq).
  assert (Hback : forall q', In q' (frames g') ->
                             exists q, In q (frames (group t))
                                       /\ q' = Mat.apply T q).
  { intros q' Hq'. rewrite Hframes in Hq'. apply in_map_iff in Hq'.
    destruct Hq' as (q & <- & Hq). exists q. auto. }
  assert (Hlox : minX e' = minX e + px (unrotate delta)).
  { destruct (Hback q1' Hq1') as (p1 & Hp1 & ->).
    rewrite Hshift in E1'. cbn [px] in E1'.
    pose proof (Hin p1 Hp1). pose proof (Hin' _ (Hmoved q1 Hq1)) as H'.
    rewrite Hshift in H'. cbn [px py] in H'. lra. }
  assert (Hloy : minY e' = minY e + py (unrotate delta)).
  { destruct (Hback q2' Hq2') as (p1 & Hp1 & ->).
    rewrite Hshift in E2'. cbn [py] in E2'.
    pose proof (Hin p1 Hp1). pose proof (Hin' _ (Hmoved q2 Hq2)) as H'.
    rewrite Hshift in H'. cbn [px py] in H'. lra. }
  assert (Hhix : maxX e' = maxX e + px (unrotate delta)).
  { destruct (Hback q3' Hq3') as (p1 & Hp1 & ->).
    rewrite Hshift in E3'. cbn [px] in E3'.
    pose proof (Hin p1 Hp1). pose proof (Hin' _ (Hmoved q3 Hq3)) as H'.
    rewrite Hshift in H'. cbn [px py] in H'. lra. }
  assert (Hhiy : maxY e' = maxY e + py (unrotate delta)).
  { destruct (Hback q4' Hq4') as (p1 & Hp1 & ->).
    rewrite Hshift in E4'. cbn [py] in E4'.
    pose proof (Hin p1 Hp1). pose proof (Hin' _ (Hmoved q4 Hq4)) as H'.
    rewrite Hshift in H'. cbn [px py] in H'. lra. }
  split; [reflexivity |].
  split; [rewrite Hw, Hw'; lra |].
  split; [rewrite Hh, Hh'; lra |].
  assert (HU : unrotate (OB.center after)
               = unrotate (mkPoint (px (OB.center before) + px delta)
                                   (py (OB.center before) + py delta))).
  { rewrite Hc'.
    assert (Hsum : unrotate (mkPoint (px (OB.center before) + px delta)
                                     (py (OB.center before) + py delta))
                   = mkPoint (px (unrotate (OB.center before))
                              + px (unrotate delta))
                             (py (unrotate (OB.center before))
                              + py (unrotate delta))).
    { unfold unrotate. rewrite !apply_rotation.
      apply point_eq; cbn [px py]; ring. }
    rewrite Hsum, Hc. apply point_eq; cbn [px py]; lra. }
  apply (f_equal (Mat.apply (Mat.rotate Mat.identity r))) in HU.
  unfold unrotate in HU. rewrite !rotate_unrotate in HU. exact HU.
Qed.

Lemma translated_rectangle_frames_finite (q : Point) :
  In q (flat_map (fun d => calculateTransformedCorners d (worldTransform d))
          (group (translateGroup drawn_rectangle (mkPoint 10 5)))) ->
  - JS.MAX_VALUE
  <= px (Mat.apply
           (Mat.rotate Mat.identity (- rotation (groupBounds drawn_rectangle)))
           q)
  <= JS.MAX_VALUE /\
  - JS.MAX_VALUE
  <= py (Mat.apply
           (Mat.rotate Mat.identity (- rotation (groupBounds drawn_rectangle)))
           q)
  <= JS.MAX_VALUE.
Proof.
  pose proof MAX_VALUE_large as Hmax.
  change (rotation (groupBounds drawn_rectangle)) with 0.
  rewrite rotate_identity_0, apply_identity.
  unfold translateGroup. rewrite frames_of_moved_group.
  cbn [flat_map drawn_rectangle single_rectangle group rectangle_100_50 app
       calculateTransformedCorners worldTransform localBounds
       rx ry rwidth rheight map].
  rewrite !apply_identity.
  intros [<- | [<- | [<- | [<- | []]]]]; simpl; lra.
Qed.

Lemma translateGroup_moves_bounds_witness :
  group drawn_rectangle <> [] /\
  rwidth (innerBounds
            (groupBounds (translateGroup drawn_rectangle (mkPoint 10 5))))
  = 100 /\
  OB.center (groupBounds (translateGroup drawn_rectangle (mkPoint 10 5)))
  = mkPoint 60 30.
Proof.
  assert (Hg : group drawn_rectangle <> []) by discriminate.
  split; [exact Hg |].
  destruct (@translateGroup_moves_bounds drawn_rectangle (mkPoint 10 5) Hg
              rectangle_frames_finite translated_rectangle_frames_finite)
    as (_ & Hw & _ & Hc).
  change (group drawn_rectangle) with [rectangle_100_50] in Hw, Hc.
  change (rotation (groupBounds drawn_rectangle)) with 0 in Hw, Hc.
  rewrite single_rectangle_bounds in Hw, Hc.
  split; [exact Hw |].
  rewrite Hc. apply point_eq; simpl; lra.
Defined.

(** ** Oriented bounds of one object *)

Lemma Rmin_cases (x y : R) : Rmin x y = x \/ Rmin x y = y.
Proof. unfold Rmin. destruct (Rle_dec x y); auto. Qed.

Lemma Rmax_cases (x y : R) : Rmax x y = x \/ Rmax x y = y.
Proof. unfold Rmax. destruct (Rle_dec x y); auto. Qed.

Lemma min4_max4 (a b c d : R) :
  let lo := Math_min4 a b c d in
  let hi := Math_max4 a b c d in
  (lo <= a <= hi /\ lo <= b <= hi /\ lo <= c <= hi /\ lo <= d <= hi) /\
  (lo = a \/ lo = b \/ lo = c \/ lo = d) /\
  (hi = a \/ hi = b \/ hi = c \/ hi = d).
Proof.
  unfold Math_min4, Math_max4. cbv zeta.
  pose proof (Rmin_l a b). pose proof (Rmin_r a b).
  pose proof (Rmin_l (Rmin a b) c). pose proof (Rmin_r (Rmin a b) c).
  pose proof (Rmin_l (Rmin (Rmin a b) c) d).
  pose proof (Rmin_r (Rmin (Rmin a b) c) d).
  pose proof (Rmax_l a b). pose proof (Rmax_r a b).
  pose proof (Rmax_l (Rmax a b) c). pose proof (Rmax_r (Rmax a b) c).
  pose proof (Rmax_l (Rmax (Rmax a b) c) d).
  pose proof (Rmax_r (Rmax (Rmax a b) c) d).
  split; [repeat split; lra |]. split.
  - destruct (Rmin_cases (Rmin (Rmin a b) c) d) as [-> | ->]; [| auto].
    destruct (Rmin_cases (Rmin a b) c) as [-> | ->]; [| auto].
    destruct (Rmin_cases a b) as [-> | ->]; auto.
  - destruct (Rmax_cases (Rmax (Rmax a b) c) d) as [-> | ->]; [| auto].
    destruct (Rmax_cases (Rmax a b) c) as [-> | ->]; [| auto].
    destruct (Rmax_cases a b) as [-> | ->]; auto.
Qed.

(** X16: whatever the transform of the object and whatever rotation is
    decomposed from it, the oriented bounds of one object never have a
    negative width or height, all four corners of the object, un-rotated
    about their centroid, lie inside the inner rectangle, and each side
    of the rectangle passes through one of them. *)
Theorem calculateOrientedBounds_encloses (decomposeRotation : Matrix -> R)
    (d : DisplayObject) :
  let b := calculateOrientedBounds decomposeRotation d in
  let corners := calculateTransformedCorners d (worldTransform d) in
  let cx := (px (nth 0 corners (mkPoint 0 0)) + px (nth 1 corners (mkPoint 0 0))
             + px (nth 2 corners (mkPoint 0 0))
             + px (nth 3 corners (mkPoint 0 0))) / 4 in
  let cy := (py (nth 0 corners (mkPoint 0 0)) + py (nth 1 corners (mkPoint 0 0))
             + py (nth 2 corners (mkPoint 0 0))
             + py (nth 3 corners (mkPoint 0 0))) / 4 in
  let unrotate :=
    Mat.apply
      (Mat.translate
         (Mat.rotate (Mat.translate Mat.identity (- cx) (- cy))
            (- rotation b))
         cx cy) in
  let r := innerBounds b in
  0 <= rwidth r /\ 0 <= rheight r /\
  (forall q, In q corners ->
     rx r <= px (unrotate q) <= rx r + rwidth r /\
     ry r <= py (unrotate q) <= ry r + rheight r) /\
  (exists q, In q corners /\ px (unrotate q) = rx r) /\
  (exists q, In q corners /\ py (unrotate q) = ry r) /\
  (exists q, In q corners /\ px (unrotate q) = rx r + rwidth r) /\
  (exists q, In q corners /\ py (unrotate q) = ry r + rheight r).
Proof.
  intros b corners cx cy unrotate r.
  assert (Hc : corners = [nth 0 corners (mkPoint 0 0);
                          nth 1 corners (mkPoint 0 0);
                          nth 2 corners (mkPoint 0 0);
                          nth 3 corners (mkPoint 0 0)]) by reflexivity.
  set (q0 := nth 0 corners (mkPoint 0 0)) in *.
  set (q1 := nth 1 corners (mkPoint 0 0)) in *.
  set (q2 := nth 2 corners (mkPoint 0 0)) in *.
  set (q3 := nth 3 corners (mkPoint 0 0)) in *.
  destruct (min4_max4 (px (unrotate q0)) (px (unrotate q1))
              (px (unrotate q2)) (px (unrotate q3))) as (Hx & Hxlo & Hxhi).
  destruct (min4_max4 (py (unrotate q0)) (py (unrotate q1))
              (py (unrotate q2)) (py (unrotate q3))) as (Hy & Hylo & Hyhi).
  cbv zeta in Hx, Hxlo, Hxhi, Hy, Hylo, Hyhi.
  assert (Rx : rx r = Math_min4 (px (unrotate q0)) (px (unrotate q1))
                        (px (unrotate q2)) (px (unrotate q3))) by reflexivity.
  assert (Ry : ry r = Math_min4 (py (unrotate q0)) (py (unrotate q1))
                        (py (unrotate q2)) (py (unrotate q3))) by reflexivity.
  assert (Rw : rx r + rwidth r
               = Math_max4 (px (unrotate q0)) (px (unrotate q1))
                   (px (unrotate q2)) (px (unrotate q3))).
  { assert (H : rwidth r
                 = Math_max4 (px (unrotate q0)) (px (unrotate q1))
                     (px (unrotate q2)) (px (unrotate q3)) - rx r)
      by reflexivity.
    lra. }
  assert (Rh : ry r + rheight r
               = Math_max4 (py (unrotate q0)) (py (unrotate q1))
                   (py (unrotate q2)) (py (unrotate q3))).
  { assert (H : rheight r
                 = Math_max4 (py (unrotate q0)) (py (unrotate q1))
                     (py (unrotate q2)) (py (unrotate q3)) - ry r)
      by reflexivity.
    lra. }
  rewrite <- Rx, <- Rw in Hx. rewrite <- Rx in Hxlo. rewrite <- Rw in Hxhi.
  rewrite <- Ry, <- Rh in Hy. rewrite <- Ry in Hylo. rewrite <- Rh in Hyhi.
  split; [lra | split; [lra |]].
  split.
  { rewrite Hc. intros q [<- | [<- | [<- | [<- | []]]]]; lra. }
  rewrite Hc.
  repeat split.
  - destruct Hxlo as [H | [H | [H | H]]];
      [exists q0 | exists q1 | exists q2 | exists q3]; cbn [In]; auto 6.
  - destruct Hylo as [H | [H | [H | H]]];
      [exists q0 | exists q1 | exists q2 | exists q3]; cbn [In]; auto 6.
  - destruct Hxhi as [H | [H | [H | H]]];
      [exists q0 | exists q1 | exists q2 | exists q3]; cbn [In]; auto 6.
  - destruct Hyhi as [H | [H | [H | H]]];
      [exists q0 | exists q1 | exists q2 | exists q3]; cbn [In]; auto 6.
Qed.

Lemma unrotate_about_centre (c : Point) (a u v : R) :
  Mat.apply
    (Mat.translate
       (Mat.rotate (Mat.translate Mat.identity (- px c) (- py c)) (- a))
       (px c) (py c))
    (frame_point c a u v)
  = mkPoint (px c + u) (py c + v).
Proof.
  rewrite apply_rotation_about, cos_neg, sin_neg.
  destruct (frame_point_inj_coordinates c a u v) as [Hu Hv].
  generalize dependent (frame_point c a u v). intros q Hu Hv.
  apply point_eq; cbn [px py].
  - rewrite <- Hu. ring.
  - rewrite <- Hv. ring.
Qed.

Lemma min4_symmetric (c k : R) :
  0 <= k ->
  Math_min4 (c - k) (c + k) (c + k) (c - k) = c - k /\
  Math_max4 (c - k) (c + k) (c + k) (c - k) = c + k /\
  Math_min4 (c - k) (c - k) (c + k) (c + k) = c - k /\
  Math_max4 (c - k) (c - k) (c + k) (c + k) = c + k.
Proof.
  intros Hk. unfold Math_min4, Math_max4.
  assert (A1 : Rmin (c - k) (c + k) = c - k) by (apply Rmin_left; lra).
  assert (A2 : Rmin (c - k) (c - k) = c - k) by (apply Rmin_left; lra).
  assert (B1 : Rmax (c - k) (c + k) = c + k) by (apply Rmax_right; lra).
  assert (B2 : Rmax (c + k) (c + k) = c + k) by (apply Rmax_left; lra).
  assert (B3 : Rmax (c + k) (c - k) = c + k) by (apply Rmax_left; lra).
  assert (B4 : Rmax (c - k) (c - k) = c - k) by (apply Rmax_left; lra).
  repeat split.
  - rewrite A1, A1, A2. reflexivity.
  - rewrite B1, B2, B3. reflexivity.
  - rewrite A2, A1, A1. reflexivity.
  - rewrite B4, B1, B2. reflexivity.
Qed.

(** X17: for an object with a local rectangle of non-negative size whose
    world transform scales by non-negative factors, then rotates, then
    translates, and whose decomposed rotation is that rotation, the
    oriented bounds reproduce the object: their four corners are its four
    transformed corners, their size is the scaled local size and their
    centre is the image of the local centre. *)
Theorem calculateOrientedBounds_round_trip (decomposeRotation : Matrix -> R)
    (local : Rectangle) (sx sy angle tx ty : R) :
  let world :=
    Mat.translate (Mat.rotate (Mat.scale Mat.identity sx sy) angle) tx ty in
  let d := mkDO world local in
  let b := calculateOrientedBounds decomposeRotation d in
  let corners := calculateTransformedCorners d world in
  0 <= sx -> 0 <= sy -> 0 <= rwidth local -> 0 <= rheight local ->
  decomposeRotation world = angle ->
  rotation b = angle /\
  rwidth (innerBounds b) = sx * rwidth local /\
  rheight (innerBounds b) = sy * rheight local /\
  OB.center b
  = Mat.apply world (mkPoint (rx local + rwidth local / 2)
                             (ry local + rheight local / 2)) /\
  [OB.topLeft b; OB.topRight b; OB.bottomRight b; OB.bottomLeft b] = corners.
Proof.
  intros world d b corners Hsx Hsy Hw Hh Hrot.
  destruct local as [x y w h]. cbn [rx ry rwidth rheight] in *.
  set (cen := Mat.apply world (mkPoint (x + w / 2) (y + h / 2))).
  assert (Hworld : forall q,
             Mat.apply world q
             = mkPoint (sx * px q * cos angle - sy * py q * sin angle + tx)
                       (sx * px q * sin angle + sy * py q * cos angle + ty))
    by (intros q; apply point_eq; simpl; ring).
  assert (Hcorner : forall u v,
             Mat.apply world (mkPoint (x + w / 2 + u) (y + h / 2 + v))
             = frame_point cen angle (sx * u) (sy * v)).
  { intros u v. unfold cen, frame_point. rewrite !Hworld.
    apply point_eq; cbn [px py]; ring. }
  assert (H0 : nth 0 corners (mkPoint 0 0)
               = frame_point cen angle (sx * (- w / 2)) (sy * (- h / 2))).
  { rewrite <- Hcorner. cbn. f_equal. f_equal; field. }
  assert (H1 : nth 1 corners (mkPoint 0 0)
               = frame_point cen angle (sx * (w / 2)) (sy * (- h / 2))).
  { rewrite <- Hcorner. cbn. f_equal. f_equal; field. }
  assert (H2 : nth 2 corners (mkPoint 0 0)
               = frame_point cen angle (sx * (w / 2)) (sy * (h / 2))).
  { rewrite <- Hcorner. cbn. f_equal. f_equal; field. }
  assert (H3 : nth 3 corners (mkPoint 0 0)
               = frame_point cen angle (sx * (- w / 2)) (sy * (h / 2))).
  { rewrite <- Hcorner. cbn. f_equal. f_equal; field. }
  assert (Hb : b = mkOB (mkRect (px cen - sx * w / 2) (py cen - sy * h / 2)
                           (sx * w) (sy * h)) angle).
  { unfold b, calculateOrientedBounds. cbv zeta.
    change (worldTransform d) with world. rewrite Hrot.
    change (calculateTransformedCorners d world) with corners.
    rewrite H0, H1, H2, H3.
    assert (Hcx : (px (frame_point cen angle (sx * (- w / 2)) (sy * (- h / 2)))
                   + px (frame_point cen angle (sx * (w / 2)) (sy * (- h / 2)))
                   + px (frame_point cen angle (sx * (w / 2)) (sy * (h / 2)))
                   + px (frame_point cen angle (sx * (- w / 2)) (sy * (h / 2))))
                  / 4 = px cen)
      by (unfold frame_point; cbn [px py]; field).
    assert (Hcy : (py (frame_point cen angle (sx * (- w / 2)) (sy * (- h / 2)))
                   + py (frame_point cen angle (sx * (w / 2)) (sy * (- h / 2)))
                   + py (frame_point cen angle (sx * (w / 2)) (sy * (h / 2)))
                   + py (frame_point cen angle (sx * (- w / 2)) (sy * (h / 2))))
                  / 4 = py cen)
      by (unfold frame_point; cbn [px py]; field).
    rewrite Hcx, Hcy, !unrotate_about_centre. cbn [px py].
    assert (Kx : 0 <= sx * w / 2) by nra.
    assert (Ky : 0 <= sy * h / 2) by nra.
    destruct (@min4_symmetric (px cen) (sx * w / 2) Kx) as (M1 & M2 & _ & _).
    destruct (@min4_symmetric (py cen) (sy * h / 2) Ky) as (_ & _ & M3 & M4).
    replace (px cen + sx * (- w / 2)) with (px cen - sx * w / 2) by field.
    replace (px cen + sx * (w / 2)) with (px cen + sx * w / 2) by field.
    replace (py cen + sy * (- h / 2)) with (py cen - sy * h / 2) by field.
    replace (py cen + sy * (h / 2)) with (py cen + sy * h / 2) by field.
    rewrite M1, M2, M3, M4. f_equal. f_equal; field. }
  destruct (bounds_corners_in_frame b) as (Htl & Htr & Hbl & Hbr & _).
  cbv zeta in Htl, Htr, Hbl, Hbr.
  assert (Hcen : OB.center b = cen).
  { rewrite Hb. unfold OB.center. apply point_eq; cbn; field. }
  rewrite Htl, Htr, Hbl, Hbr, Hcen. rewrite Hb.
  cbn [rotation innerBounds rwidth rheight].
  repeat split.
  change corners with [nth 0 corners (mkPoint 0 0); nth 1 corners (mkPoint 0 0);
                       nth 2 corners (mkPoint 0 0); nth 3 corners (mkPoint 0 0)].
  rewrite H0, H1, H2, H3.
  repeat (f_equal; try (apply frame_point_ext; field)).
Qed.

Lemma calculateOrientedBounds_round_trip_witness :
  0 <= 1 /\ 0 <= rwidth (mkRect 0 0 100 50) /\
  rwidth (innerBounds
            (calculateOrientedBounds (fun _ => 0)
               (mkDO (Mat.translate
                        (Mat.rotate (Mat.scale Mat.identity 1 1) 0) 0 0)
                     (mkRect 0 0 100 50))))
  = 1 * 100.
Proof.
  assert (H1 : 0 <= 1) by lra.
  assert (Hw : 0 <= rwidth (mkRect 0 0 100 50)) by (simpl; lra).
  assert (Hh : 0 <= rheight (mkRect 0 0 100 50)) by (simpl; lra).
  split; [exact H1 | split; [exact Hw |]].
  destruct (@calculateOrientedBounds_round_trip (fun _ => 0)
              (mkRect 0 0 100 50) 1 1 0 0 0 H1 H1 Hw Hh eq_refl)
    as (_ & H & _).
  exact H.
Defined.

Lemma min4_unique (a b c d lo : R) :
  lo <= a -> lo <= b -> lo <= c -> lo <= d ->
  lo = a \/ lo = b \/ lo = c \/ lo = d ->
  Math_min4 a b c d = lo.
Proof.
  intros Ha Hb Hc Hd Hlo.
  destruct (min4_max4 a b c d) as (Hall & Hmin & _). cbv zeta in Hall, Hmin.
  destruct Hlo as [-> | [-> | [-> | ->]]];
    destruct Hmin as [H | [H | [H | H]]]; lra.
Qed.

Lemma max4_unique (a b c d hi : R) :
  a <= hi -> b <= hi -> c <= hi -> d <= hi ->
  hi = a \/ hi = b \/ hi = c \/ hi = d ->
  Math_max4 a b c d = hi.
Proof.
  intros Ha Hb Hc Hd Hhi.
  destruct (min4_max4 a b c d) as (Hall & _ & Hmax). cbv zeta in Hall, Hmax.
  destruct Hhi as [-> | [-> | [-> | ->]]];
    destruct Hmax as [H | [H | [H | H]]]; lra.
Qed.

Lemma min4_max4_shift (a b c d s : R) :
  Math_min4 (a + s) (b + s) (c + s) (d + s) = Math_min4 a b c d + s /\
  Math_max4 (a + s) (b + s) (c + s) (d + s) = Math_max4 a b c d + s.
Proof.
  destruct (min4_max4 a b c d) as (Hall & Hmin & Hmax).
  cbv zeta in Hall, Hmin, Hmax. split.
  - apply min4_unique; lra.
  - apply max4_unique; lra.
Qed.

Lemma min4_max4_centred (a b c d m : R) :
  a + c = 2 * m -> b + d = 2 * m ->
  Math_min4 a b c d + Math_max4 a b c d = 2 * m.
Proof.
  intros Hac Hbd.
  destruct (min4_max4 a b c d) as (Hall & Hmin & Hmax).
  cbv zeta in Hall, Hmin, Hmax.
  assert (Hle : Math_min4 a b c d + Math_max4 a b c d <= 2 * m)
    by (destruct Hmax as [E | [E | [E | E]]]; lra).
  assert (Hge : 2 * m <= Math_min4 a b c d + Math_max4 a b c d)
    by (destruct Hmin as [E | [E | [E | E]]]; lra).
  lra.
Qed.

(** The scan of four vertices from the sentinels gives their minima and
    maxima when the vertices are within the sentinels. *)
Lemma scan_four (matrix : Matrix) (q0 q1 q2 q3 : Point) :
  (forall q, In q [q0; q1; q2; q3] ->
     - JS.MAX_VALUE <= px (Mat.apply matrix q) <= JS.MAX_VALUE /\
     - JS.MAX_VALUE <= py (Mat.apply matrix q) <= JS.MAX_VALUE) ->
  let u q := Mat.apply matrix q in
  fold_left (scanVertex matrix) [q0; q1; q2; q3]
    (mkExt JS.MAX_VALUE JS.MAX_VALUE (- JS.MAX_VALUE) (- JS.MAX_VALUE))
  = mkExt (Math_min4 (px (u q0)) (px (u q1)) (px (u q2)) (px (u q3)))
          (Math_min4 (py (u q0)) (py (u q1)) (py (u q2)) (py (u q3)))
          (Math_max4 (px (u q0)) (px (u q1)) (px (u q2)) (px (u q3)))
          (Math_max4 (py (u q0)) (py (u q1)) (py (u q2)) (py (u q3))).
Proof.
  intros Hfin u.
  pose proof (scan_fold matrix [q0; q1; q2; q3]
                (mkExt JS.MAX_VALUE JS.MAX_VALUE
                   (- JS.MAX_VALUE) (- JS.MAX_VALUE))) as Hscan.
  cbv zeta in Hscan. cbn [minX minY maxX maxY] in Hscan.
  set (e := fold_left (scanVertex matrix) [q0; q1; q2; q3] _) in *.
  destruct Hscan as (_ & Hin & J1 & J2 & J3 & J4).
  destruct (Hin q0 (or_introl eq_refl)) as [X0 Y0].
  destruct (Hin q1 (or_intror (or_introl eq_refl))) as [X1 Y1].
  destruct (Hin q2 (or_intror (or_intror (or_introl eq_refl)))) as [X2 Y2].
  destruct (Hin q3 (or_intror (or_intror (or_intror (or_introl eq_refl)))))
    as [X3 Y3].
  destruct (Hfin q0 (or_introl eq_refl)) as [F0 G0].
  fold (u q0) in X0, Y0, F0, G0. fold (u q1) in X1, Y1.
  fold (u q2) in X2, Y2. fold (u q3) in X3, Y3.
  assert (In4 : forall (f : Point -> R) (m : R),
             (exists q, In q [q0; q1; q2; q3] /\ m = f (Mat.apply matrix q)) ->
             m = f (u q0) \/ m = f (u q1) \/ m = f (u q2) \/ m = f (u q3)).
  { intros f m (q & [<- | [<- | [<- | [<- | []]]]] & Hm); auto. }
  destruct e as [ex ey eX eY]. cbn [minX minY maxX maxY] in *.
  f_equal; symmetry.
  - apply min4_unique; try lra.
    destruct J1 as [J | J]; [left; lra | apply (In4 px); exact J].
  - apply min4_unique; try lra.
    destruct J2 as [J | J]; [left; lra | apply (In4 py); exact J].
  - apply max4_unique; try lra.
    destruct J3 as [J | J]; [left; lra | apply (In4 px); exact J].
  - apply max4_unique; try lra.
    destruct J4 as [J | J]; [left; lra | apply (In4 py); exact J].
Qed.

(** X18: the two ways [draw] measures a group agree on a group of one.
    When the un-rotated corners of the object are within
    [Number.MAX_VALUE] of zero, [calculateGroupOrientedBounds] on the
    one-member group, at the rotation decomposed from the member's own
    transform, returns exactly the bounds that [calculateOrientedBounds]
    returns for the member, whatever the member's transform is. *)
Theorem single_member_bounds_agree (decomposeRotation : Matrix -> R)
    (d : DisplayObject) :
  let r := decomposeRotation (worldTransform d) in
  (forall q, In q (calculateTransformedCorners d (worldTransform d)) ->
     - JS.MAX_VALUE <= px (Mat.apply (Mat.rotate Mat.identity (- r)) q)
       <= JS.MAX_VALUE /\
     - JS.MAX_VALUE <= py (Mat.apply (Mat.rotate Mat.identity (- r)) q)
       <= JS.MAX_VALUE) ->
  calculateGroupOrientedBounds [d] r
  = calculateOrientedBounds decomposeRotation d.
Proof.
  intros r Hfin.
  set (corners := calculateTransformedCorners d (worldTransform d)) in *.
  set (q0 := nth 0 corners (mkPoint 0 0)).
  set (q1 := nth 1 corners (mkPoint 0 0)).
  set (q2 := nth 2 corners (mkPoint 0 0)).
  set (q3 := nth 3 corners (mkPoint 0 0)).
  assert (Hcorners : corners = [q0; q1; q2; q3]) by reflexivity.
  set (cx := (px q0 + px q1 + px q2 + px q3) / 4).
  set (cy := (py q0 + py q1 + py q2 + py q3) / 4).
  set (U := Mat.apply (Mat.rotate Mat.identity (- r))).
  (* The corners form a parallelogram about the centroid. *)
  assert (Hpar : px q0 + px q2 = 2 * cx /\ py q0 + py q2 = 2 * cy /\
                 px q1 + px q3 = 2 * cx /\ py q1 + py q3 = 2 * cy).
  { unfold cx, cy, q0, q1, q2, q3, corners, calculateTransformedCorners.
    cbn [nth]. unfold Mat.apply. cbn [px py]. repeat split; field. }
  destruct Hpar as (P1 & P2 & P3 & P4).
  assert (HU : forall q, U q = mkPoint (px q * cos r + py q * sin r)
                                       (py q * cos r - px q * sin r)).
  { intros q. unfold U. rewrite apply_rotation, cos_neg, sin_neg.
    apply point_eq; cbn [px py]; ring. }
  set (ux := cx * cos r + cy * sin r).
  set (uy := cy * cos r - cx * sin r).
  assert (S1 : px (U q0) + px (U q2) = 2 * ux).
  { rewrite !HU. cbn [px]. unfold ux.
    replace (px q0 * cos r + py q0 * sin r + (px q2 * cos r + py q2 * sin r))
      with ((px q0 + px q2) * cos r + (py q0 + py q2) * sin r) by ring.
    rewrite P1, P2. ring. }
  assert (S2 : px (U q1) + px (U q3) = 2 * ux).
  { rewrite !HU. cbn [px]. unfold ux.
    replace (px q1 * cos r + py q1 * sin r + (px q3 * cos r + py q3 * sin r))
      with ((px q1 + px q3) * cos r + (py q1 + py q3) * sin r) by ring.
    rewrite P3, P4. ring. }
  assert (S3 : py (U q0) + py (U q2) = 2 * uy).
  { rewrite !HU. cbn [py]. unfold uy.
    replace (py q0 * cos r - px q0 * sin r + (py q2 * cos r - px q2 * sin r))
      with ((py q0 + py q2) * cos r - (px q0 + px q2) * sin r) by ring.
    rewrite P1, P2. ring. }
  assert (S4 : py (U q1) + py (U q3) = 2 * uy).
  { rewrite !HU. cbn [py]. unfold uy.
    replace (py q1 * cos r - px q1 * sin r + (py q3 * cos r - px q3 * sin r))
      with ((py q1 + py q3) * cos r - (px q1 + px q3) * sin r) by ring.
    rewrite P3, P4. ring. }
  pose proof (min4_max4_centred S1 S2) as Cx.
  pose proof (min4_max4_centred S3 S4) as Cy.
  set (lox := Math_min4 (px (U q0)) (px (U q1)) (px (U q2)) (px (U q3))) in *.
  set (hix := Math_max4 (px (U q0)) (px (U q1)) (px (U q2)) (px (U q3))) in *.
  set (loy := Math_min4 (py (U q0)) (py (U q1)) (py (U q2)) (py (U q3))) in *.
  set (hiy := Math_max4 (py (U q0)) (py (U q1)) (py (U q2)) (py (U q3))) in *.
  (* The group path. *)
  assert (Hgroup : calculateGroupOrientedBounds [d] r
                   = mkOB (mkRect (cx - (hix - lox) / 2) (cy - (hiy - loy) / 2)
                             (hix - lox) (hiy - loy)) r).
  { unfold calculateGroupOrientedBounds. cbn [flat_map]. rewrite app_nil_r.
    fold corners. rewrite Hcorners.
    rewrite (@scan_four (Mat.rotate Mat.identity (- r)) q0 q1 q2 q3)
      by (rewrite <- Hcorners; exact Hfin).
    cbv zeta. fold U. fold lox hix loy hiy.
    cbn [minX minY maxX maxY].
    rewrite applyInverse_unrotation.
    assert (Hc0 : OB.center (mkOB (mkRect lox loy (hix - lox) (hiy - loy)) r)
                  = U (mkPoint cx cy)).
    { rewrite HU. unfold OB.center.
      apply point_eq; cbn [px py innerBounds rx ry rwidth rheight];
        fold ux uy; lra. }
    rewrite Hc0. unfold U. rewrite rotate_unrotate.
    unfold OB.set_center. cbn [innerBounds rwidth rheight rotation px py].
    reflexivity. }
  (* The single-object path. *)
  assert (HA : forall q,
             Mat.apply
               (Mat.translate
                  (Mat.rotate (Mat.translate Mat.identity (- cx) (- cy)) (- r))
                  cx cy) q
             = mkPoint (px (U q) + (cx - ux)) (py (U q) + (cy - uy))).
  { intros q.
    pose proof (apply_rotation_about (mkPoint cx cy) q (- r)) as Hq.
    cbn [px py] in Hq. rewrite Hq, HU, cos_neg, sin_neg.
    unfold ux, uy. apply point_eq; cbn [px py]; ring. }
  assert (Hsingle : calculateOrientedBounds decomposeRotation d
                    = mkOB (mkRect (lox + (cx - ux)) (loy + (cy - uy))
                              (hix - lox) (hiy - loy)) r).
  { unfold calculateOrientedBounds. cbv zeta. fold r. fold corners.
    fold q0 q1 q2 q3. fold cx cy. rewrite !HA. cbn [px py].
    destruct (min4_max4_shift (px (U q0)) (px (U q1)) (px (U q2)) (px (U q3))
                (cx - ux)) as [Mx1 Mx2].
    destruct (min4_max4_shift (py (U q0)) (py (U q1)) (py (U q2)) (py (U q3))
                (cy - uy)) as [My1 My2].
    rewrite Mx1, Mx2, My1, My2. fold lox hix loy hiy.
    f_equal. f_equal; ring. }
  rewrite Hgroup, Hsingle. f_equal. f_equal; lra.
Qed.

Lemma rectangle_corners_finite (q : Point) :
  In q (calculateTransformedCorners rectangle_100_50
          (worldTransform rectangle_100_50)) ->
  - JS.MAX_VALUE
  <= px (Mat.apply
           (Mat.rotate Mat.identity
              (- (fun _ : Matrix => 0) (worldTransform rectangle_100_50))) q)
  <= JS.MAX_VALUE /\
  - JS.MAX_VALUE
  <= py (Mat.apply
           (Mat.rotate Mat.identity
              (- (fun _ : Matrix => 0) (worldTransform rectangle_100_50))) q)
  <= JS.MAX_VALUE.
Proof.
  intros Hq. apply rectangle_frames_finite.
  cbn [flat_map]. rewrite app_nil_r. exact Hq.
Qed.

Lemma single_member_bounds_agree_witness :
  (forall q,
     In q (calculateTransformedCorners rectangle_100_50
             (worldTransform rectangle_100_50)) ->
     - JS.MAX_VALUE
     <= px (Mat.apply
              (Mat.rotate Mat.identity
                 (- (fun _ : Matrix => 0) (worldTransform rectangle_100_50))) q)
     <= JS.MAX_VALUE /\
     - JS.MAX_VALUE
     <= py (Mat.apply
              (Mat.rotate Mat.identity
                 (- (fun _ : Matrix => 0) (worldTransform rectangle_100_50))) q)
     <= JS.MAX_VALUE) /\
  calculateGroupOrientedBounds [rectangle_100_50] 0
  = calculateOrientedBounds (fun _ => 0) rectangle_100_50.
Proof.
  split; [exact rectangle_corners_finite |].
  exact (@single_member_bounds_agree (fun _ => 0) rectangle_100_50
           rectangle_corners_finite).
Defined.

Lemma rotateGroup_follows_pointer_witness :
  rotationSnapTolerance unsnapped_rectangle = 0 /\
  (px (handles unsnapped_rectangle (HRotate rotator))
   <> px (OB.center (groupBounds unsnapped_rectangle)) \/
   py (handles unsnapped_rectangle (HRotate rotator))
   <> py (OB.center (groupBounds unsnapped_rectangle))) /\
  (px (mkPoint 100 25) <> px (OB.center (groupBounds unsnapped_rectangle)) \/
   py (mkPoint 100 25) <> py (OB.center (groupBounds unsnapped_rectangle))) /\
  exists matrix k,
    group (rotateGroup unsnapped_rectangle rotator (mkPoint 100 25))
    = map (fun d => multiplyTransform d matrix) (group unsnapped_rectangle) /\
    0 < k /\
    Mat.apply matrix (handles unsnapped_rectangle (HRotate rotator))
    = mkPoint (50 + k * (100 - 50)) 25.
Proof.
  assert (Ho : px (handles unsnapped_rectangle (HRotate rotator))
               <> px (OB.center (groupBounds unsnapped_rectangle)) \/
               py (handles unsnapped_rectangle (HRotate rotator))
               <> py (OB.center (groupBounds unsnapped_rectangle)))
    by (right; simpl; lra).
  assert (Hp : px (mkPoint 100 25)
               <> px (OB.center (groupBounds unsnapped_rectangle)) \/
               py (mkPoint 100 25)
               <> py (OB.center (groupBounds unsnapped_rectangle)))
    by (left; simpl; lra).
  split; [reflexivity | split; [exact Ho | split; [exact Hp |]]].
  destruct (@rotateGroup_follows_pointer unsnapped_rectangle (mkPoint 100 25)
              eq_refl Ho Hp) as (matrix & k & Hg & Hk & Himage & _).
  exists matrix, k. split; [exact Hg | split; [exact Hk |]].
  rewrite Himage. apply point_eq; simpl; lra.
Defined.

(** ** Where the skew handles are drawn *)

(** X19: with the skew snap tolerance at zero, a skew gesture leaves the
    skew angle of the dragged handle such that [drawHandles] places that
    handle, around whatever bounds it is given, in the direction from the
    old centre of the bounds to the pointer. *)
Theorem skewGroup_aims_handle
    (createHorizontalSkew createVerticalSkew : R -> Matrix)
    (t : Transformer) (p : Point) :
  let c := OB.center (groupBounds t) in
  let after k := skewGroup createHorizontalSkew createVerticalSkew t k p in
  skewSnapTolerance t = 0 ->
  px p <> px c \/ py p <> py c ->
  exists r, 0 < r /\
    forall (k : SkewHandle) (b : OrientedBounds) (skewRadius : R),
      drawHandles_skew b (_skewX (after k)) (_skewY (after k)) skewRadius k
      = mkPoint (px (OB.center b) + skewRadius * ((px p - px c) / r))
                (py (OB.center b) + skewRadius * ((py p - py c) / r)).
Proof.
  intros c after Htol Hp.
  destruct (@atan2_polar (px p - px c) (py p - py c)) as (r & Hr & Hx & Hy);
    [destruct Hp; [left | right]; lra |].
  set (a := JS.atan2 (py p - py c) (px p - px c)) in *.
  exists r. split; [exact Hr |].
  intros k b skewRadius. rewrite Hx, Hy.
  destruct k; unfold after, skewGroup, skewGroup_step, drawHandles_skew;
    cbn [step_skewX step_skewY updateGroupBounds prependTransform with_skew
         with_group with_groupBounds _skewX _skewY skewSnapTolerance];
    fold c; fold a; rewrite Htol, snapAngle_zero_tolerance.
  - destruct (rem_multiple a (PI * 2)) as (n & Hn & _). rewrite Hn.
    destruct (cos_sin_shift a n) as [Hc Hs]. rewrite Hc, Hs.
    apply point_eq; cbn [px py]; field; lra.
  - destruct (rem_multiple (a - PI / 2) (PI * 2)) as (n & Hn & _). rewrite Hn.
    destruct (cos_sin_shift (a - PI / 2) n) as [Hc Hs]. rewrite Hc, Hs.
    rewrite cos_minus, sin_minus, cos_PI2, sin_PI2.
    apply point_eq; cbn [px py]; field; lra.
Qed.

Lemma skewGroup_aims_handle_witness :
  skewSnapTolerance unsnapped_rectangle = 0 /\
  (px (mkPoint 100 75) <> px (OB.center (groupBounds unsnapped_rectangle)) \/
   py (mkPoint 100 75) <> py (OB.center (groupBounds unsnapped_rectangle))) /\
  exists r, 0 < r /\
    forall (k : SkewHandle) (b : OrientedBounds) (skewRadius : R),
      px (drawHandles_skew b
            (_skewX (skewGroup (fun _ => Mat.identity) (fun _ => Mat.identity)
                       unsnapped_rectangle k (mkPoint 100 75)))
            (_skewY (skewGroup (fun _ => Mat.identity) (fun _ => Mat.identity)
                       unsnapped_rectangle k (mkPoint 100 75)))
            skewRadius k)
      = px (OB.center b) + skewRadius * (50 / r).
Proof.
  assert (Hp : px (mkPoint 100 75)
               <> px (OB.center (groupBounds unsnapped_rectangle)) \/
               py (mkPoint 100 75)
               <> py (OB.center (groupBounds unsnapped_rectangle)))
    by (left; simpl; lra).
  split; [reflexivity | split; [exact Hp |]].
  destruct (@skewGroup_aims_handle (fun _ => Mat.identity)
              (fun _ => Mat.identity) unsnapped_rectangle (mkPoint 100 75)
              eq_refl Hp) as (r & Hr & H).
  exists r. split; [exact Hr |]. intros k b skewRadius.
  rewrite H. cbn [px]. f_equal. f_equal. f_equal. simpl. lra.
Defined.

(** ** Visibility of the handles *)

Lemma set_visible_same (vis : Handle -> bool) (h : Handle) (b : bool) :
  set_visible vis h b h = b.
Proof. unfold set_visible. destruct (Handle_eq_dec h h); congruence. Qed.

Lemma set_visible_other (vis : Handle -> bool) (h k : Handle) (b : bool) :
  k <> h -> set_visible vis h b k = vis k.
Proof. intros H. unfold set_visible. destruct (Handle_eq_dec k h); congruence. Qed.

Lemma HANDLES_complete (h : Handle) : In h HANDLES.
Proof.
  destruct h as [[] | [] | []]; unfold HANDLES, SCALE_HANDLES; cbn;
    repeat (first [left; reflexivity | right]).
Qed.

Lemma fold_set_visible (b : bool) (l : list Handle) (vis : Handle -> bool)
    (h : Handle) :
  fold_left (fun vis k => set_visible vis k b) l vis h
  = if in_dec Handle_eq_dec h l then b else vis h.
Proof.
  revert vis. induction l as [| k l IH]; intros vis; cbn [fold_left].
  - reflexivity.
  - rewrite IH. destruct (in_dec Handle_eq_dec h l) as [Hl | Hl];
      destruct (in_dec Handle_eq_dec h (k :: l)) as [Hk | Hk]; try reflexivity.
    + exfalso. apply Hk. right. exact Hl.
    + destruct Hk as [<- | Hk]; [apply set_visible_same | contradiction].
    + apply set_visible_other. intros ->. apply Hk. left. reflexivity.
Qed.

Lemma show_scale_handles_spec (vis : Handle -> bool) (b : bool) (h : Handle) :
  show_scale_handles vis b h
  = match h with
    | HScale middleCenter => vis h
    | HScale _ => b
    | _ => vis h
    end.
Proof.
  unfold show_scale_handles, SCALE_HANDLES. cbn [fold_left].
  destruct h as [[] | [] | []];
    repeat first
      [ reflexivity
      | rewrite set_visible_same
      | rewrite set_visible_other by discriminate ].
Qed.

(** X20: assigning a list to [enabledHandles] makes exactly the listed
    handles visible, whatever was visible before and whatever the three
    toggles say; the centre handle is no exception. *)
Theorem enabledHandles_list (v : View) (l : list Handle) (h : Handle) :
  let v' := set_enabledHandles v (Some l) in
  _enabledHandles v' = Some l /\
  (visible v' h = true <-> In h l).
Proof.
  intros v'.
  assert (Hv : v' = with_enabledHandles v (Some l)
                      (fold_left (fun vis k => set_visible vis k true) l
                         (fold_left (fun vis k => set_visible vis k false)
                            HANDLES (visible v))))
    by (unfold v', set_enabledHandles; destruct (_enabledHandles v); reflexivity).
  rewrite Hv. cbn [with_enabledHandles _enabledHandles visible].
  split; [reflexivity |].
  rewrite !fold_set_visible.
  destruct (in_dec Handle_eq_dec h l) as [Hl | Hl].
  - tauto.
  - destruct (in_dec Handle_eq_dec h HANDLES) as [_ | Hn];
      [| exfalso; apply Hn, HANDLES_complete].
    split; [discriminate | contradiction].
Qed.

(** X21: assigning nothing to [enabledHandles] is ignored when no list is
    in force; when one is, the list is dropped and the visibility is
    rebuilt from the three toggles, with the centre handle hidden. *)
Theorem enabledHandles_none (v : View) :
  let v' := set_enabledHandles v None in
  (_enabledHandles v = None /\ v' = v) \/
  ((exists l, _enabledHandles v = Some l) /\
   _enabledHandles v' = None /\
   forall h,
     visible v' h
     = match h with
       | HRotate _ => _rotateEnabled v
       | HScale middleCenter => false
       | HScale _ => _scaleEnabled v
       | HSkew _ => _skewEnabled v
       end).
Proof.
  intros v'. unfold v', set_enabledHandles.
  destruct (_enabledHandles v) as [l |] eqn:E; [right | left; auto].
  split; [exists l; reflexivity |].
  cbn [with_enabledHandles _enabledHandles visible].
  split; [reflexivity |]. intros h.
  rewrite show_scale_handles_spec.
  destruct h as [[] | [] | []];
    repeat first
      [ reflexivity
      | rewrite set_visible_same
      | rewrite set_visible_other by discriminate
      | rewrite fold_set_visible;
        match goal with
        | |- context [in_dec Handle_eq_dec ?h HANDLES] =>
            destruct (in_dec Handle_eq_dec h HANDLES) as [_ | Hn];
            [| exfalso; apply Hn, HANDLES_complete]
        end ].
Qed.

(** X22: the setters of [rotateEnabled] and [scaleEnabled] return the
    view unchanged when the new value differs from the stored toggle, so
    neither toggle ever changes; the setter of [skewEnabled] stores the
    new value.  None of the three changes the visibility of the centre
    handle, and none changes any visibility while a list of enabled
    handles is in force. *)
Theorem toggle_setters (v : View) (value : bool) :
  (value <> _rotateEnabled v -> set_rotateEnabled v value = v) /\
  (value <> _scaleEnabled v -> set_scaleEnabled v value = v) /\
  _rotateEnabled (set_rotateEnabled v value) = _rotateEnabled v /\
  _scaleEnabled (set_scaleEnabled v value) = _scaleEnabled v /\
  _skewEnabled (set_skewEnabled v value) = value /\
  (forall v',
     v' = set_rotateEnabled v value \/ v' = set_scaleEnabled v value \/
     v' = set_skewEnabled v value ->
     visible v' (HScale middleCenter) = visible v (HScale middleCenter) /\
     _enabledHandles v' = _enabledHandles v /\
     ((exists l, _enabledHandles v = Some l) -> visible v' = visible v)).
Proof.
  unfold set_rotateEnabled, set_scaleEnabled, set_skewEnabled.
  repeat split.
  - intros H. destruct (_rotateEnabled v), value; try reflexivity; congruence.
  - intros H. destruct (_scaleEnabled v), value; try reflexivity; congruence.
  - destruct (_rotateEnabled v) eqn:E, value, (_enabledHandles v);
      cbn; congruence.
  - destruct (_scaleEnabled v) eqn:E, value, (_enabledHandles v);
      cbn; congruence.
  - destruct (_skewEnabled v) eqn:E, value, (_enabledHandles v);
      cbn; congruence.
  - destruct H as [-> | [-> | ->]];
      destruct (_rotateEnabled v), (_scaleEnabled v), (_skewEnabled v), value,
        (_enabledHandles v);
      cbn [negb Bool.eqb with_toggles visible];
      rewrite ?show_scale_handles_spec, ?set_visible_other by discriminate;
      reflexivity.
  - destruct H as [-> | [-> | ->]];
      destruct (_rotateEnabled v), (_scaleEnabled v), (_skewEnabled v), value,
        (_enabledHandles v) eqn:E;
      cbn [negb Bool.eqb with_toggles _enabledHandles]; congruence.
  - intros [l Hl].
    destruct H as [-> | [-> | ->]]; rewrite Hl;
      destruct (_rotateEnabled v), (_scaleEnabled v), (_skewEnabled v), value;
      reflexivity.
Qed.

(** ** Dragging the transformer *)

Lemma translateGroup_point_ext (t : Transformer) (d1 d2 : Point) :
  px d1 = px d2 -> py d1 = py d2 ->
  translateGroup t d1 = translateGroup t d2.
Proof. intros Hx Hy. rewrite (point_eq d1 d2 Hx Hy). reflexivity. Qed.

Lemma drag_moves (ps : list Point) (v : View) :
  _pointerDown v = true -> _pointerDragging v = true ->
  translateEnabled v = true ->
  let q := _pointerPosition v in
  let v' := fold_left onPointerMove ps v in
  group (transformer v')
  = match ps with
    | [] => group (transformer v)
    | _ => group (translateGroup (transformer v)
                    (mkPoint (px (last ps q) - px q) (py (last ps q) - py q)))
    end /\
  _pointerPosition v' = last ps q /\
  _pointerDown v' = true /\ _pointerDragging v' = true /\
  translateEnabled v' = true.
Proof.
  revert v. induction ps as [| p ps IH]; intros v Hd Hg He q v'.
  - cbn. auto.
  - subst v'. cbn [fold_left].
    set (v1 := onPointerMove v p).
    assert (H1 : transformer v1
                 = translateGroup (transformer v)
                     (mkPoint (px p - px q) (py p - py q)) /\
                 _pointerPosition v1 = p /\ _pointerDown v1 = true /\
                 _pointerDragging v1 = true /\ translateEnabled v1 = true).
    { unfold v1, onPointerMove. rewrite Hd, Hg, He. cbn.
      repeat split; try assumption. destruct p; reflexivity. }
    destruct H1 as (Ht & Hp & Hd1 & Hg1 & He1).
    destruct (IH v1 Hd1 Hg1 He1) as (Hgroup & Hpos & Hd' & Hg' & He').
    cbv zeta in Hgroup, Hpos. rewrite Hp in Hgroup, Hpos.
    repeat split; try assumption.
    + rewrite Hgroup, Ht. destruct ps as [| p' ps'].
      * reflexivity.
      * destruct (deltas_compose (transformer v) Mat.identity
                    Mat.identity false false false) as [_ Hadd].
        rewrite Hadd. f_equal. apply translateGroup_point_ext; cbn [px py];
          change (last (p :: p' :: ps') q) with (last (p' :: ps') q);
          replace (last (p' :: ps') q) with (last (p' :: ps') p)
            by (clear; revert p'; induction ps' as [| a l IHl]; intros p';
                [reflexivity | cbn [last] in *; destruct l; [reflexivity |];
                 apply (IHl a)]);
          ring.
    + rewrite Hpos. destruct ps as [| p' ps']; [reflexivity |].
      change (last (p :: p' :: ps') q) with (last (p' :: ps') q).
      clear. revert p'. induction ps' as [| a l IHl]; intros p';
        [reflexivity |].
      cbn [last] in *. destruct l; [reflexivity |]. apply (IHl a).
Qed.

(** X23: a drag on the transformer translates the group by the pointer's
    total travel.  After a pointer-down, the first move only records the
    pointer; with [translateEnabled], the moves that follow leave the
    members as one [translateGroup] by the difference between the last and
    the first position would, however many samples lie in between. *)
Theorem drag_translates_by_total_travel (v : View) (p0 : Point)
    (ps : list Point) :
  translateEnabled v = true ->
  let start := onPointerMove (onPointerDown v) p0 in
  let v' := fold_left onPointerMove ps start in
  transformer start = transformer v /\
  group (transformer v')
  = match ps with
    | [] => group (transformer v)
    | _ => group (translateGroup (transformer v)
                    (mkPoint (px (last ps p0) - px p0)
                             (py (last ps p0) - py p0)))
    end /\
  _pointerPosition v' = last ps p0.
Proof.
  intros He start v'.
  assert (Hs : transformer start = transformer v /\
               _pointerPosition start = p0 /\ _pointerDown start = true /\
               _pointerDragging start = true /\ translateEnabled start = true).
  { unfold start, onPointerMove, onPointerDown. cbn.
    repeat split; try assumption. destruct p0; reflexivity. }
  destruct Hs as (Ht & Hp & Hd & Hg & He1).
  destruct (@drag_moves ps start Hd Hg He1) as (Hgroup & Hpos & _).
  cbv zeta in Hgroup, Hpos. rewrite Hp, Ht in Hgroup. rewrite Hp in Hpos.
  auto.
Qed.

Lemma drag_translates_by_total_travel_witness :
  translateEnabled example_view = true /\
  _pointerPosition
    (fold_left onPointerMove [mkPoint 20 15; mkPoint 30 5]
       (onPointerMove (onPointerDown example_view) (mkPoint 10 10)))
  = mkPoint 30 5.
Proof.
  split; [reflexivity |].
  destruct (@drag_translates_by_total_travel example_view (mkPoint 10 10)
              [mkPoint 20 15; mkPoint 30 5] eq_refl) as (_ & _ & H).
  exact H.
Defined.

(** ** Dragging a handle *)

Lemma last_default (a d d' : Point) (l : list Point) :
  last (a :: l) d = last (a :: l) d'.
Proof.
  revert a. induction l as [| b l IH]; intros a; [reflexivity |].
  change (last (a :: b :: l) d) with (last (b :: l) d).
  change (last (a :: b :: l) d') with (last (b :: l) d').
  apply IH.
Qed.

Lemma last_cons (p q : Point) (l : list Point) : last (p :: l) q = last l p.
Proof.
  destruct l as [| a l]; [reflexivity |].
  change (last (p :: a :: l) q) with (last (a :: l) q).
  apply last_default.
Qed.

Section HandleDrag.

Variable W : Type.
Variable handler : Point -> W -> W.
Variable commit : W -> W.

Lemma handle_drag_moves (ps : list Point) (h : TransformerHandle.t W) (w : W) :
  TransformerHandle.onHandleDelta h = Some handler ->
  TransformerHandle._pointerDown h = true ->
  TransformerHandle._pointerDragging h = true ->
  TransformerHandle._pointerMoveTarget h = true ->
  fold_left (@TransformerHandle.dispatch W) (map PointerMove ps) (h, w)
  = (TransformerHandle.with_drag h true true
       (last ps (TransformerHandle._pointerPosition h)) true,
     fold_left (fun w p => handler p w) ps w).
Proof.
  revert h w. induction ps as [| p ps IH]; intros h w Hh Hd Hg Ht.
  - cbn. destruct h. cbn in *. subst. reflexivity.
  - cbn [map fold_left].
    assert (H1 : TransformerHandle.dispatch (h, w) (PointerMove p)
                 = (TransformerHandle.with_drag h true true p true,
                    handler p w)).
    { unfold TransformerHandle.dispatch, TransformerHandle.onPointerMove,
        TransformerHandle.onDrag.
      rewrite Ht, Hd, Hg, Hh. reflexivity. }
    rewrite H1, IH by reflexivity || exact Hh.
    rewrite last_cons. reflexivity.
Qed.

(** X24: a whole drag on a handle -- pointer down, a first move, further
    moves, pointer up -- calls the delta handler once for every move after
    the first, in order, each with the pointer's position, then calls the
    commit handler once, and leaves the handle idle with its move listener
    removed.  The first move only starts the drag. *)
Theorem handle_drag_gesture (p0 : Point) (ps : list Point) (w : W) :
  fold_left (@TransformerHandle.dispatch W)
    (PointerDown :: PointerMove p0 :: map PointerMove ps ++ [PointerUp])
    (TransformerHandle.create handler commit, w)
  = (TransformerHandle.with_drag (TransformerHandle.create handler commit)
       false false (last ps p0) false,
     commit (fold_left (fun w p => handler p w) ps w)).
Proof.
  cbn [fold_left]. rewrite fold_left_app.
  replace (TransformerHandle.dispatch
             (TransformerHandle.dispatch (TransformerHandle.create handler commit, w) PointerDown)
             (PointerMove p0))
    with (TransformerHandle.with_drag
            (TransformerHandle.create handler commit) true true p0 true, w)
    by reflexivity.
  rewrite handle_drag_moves by reflexivity. reflexivity.
Qed.

(** X25: pressing and releasing a handle without a move in between calls
    neither handler; a press, a single move and a release call the commit
    handler although the delta handler was never called. *)
Theorem handle_click_and_short_drag (h : TransformerHandle.t W) (p : Point)
    (w : W) :
  TransformerHandle.onHandleCommit h = Some commit ->
  snd (fold_left (@TransformerHandle.dispatch W) [PointerDown; PointerUp] (h, w))
  = w /\
  snd (fold_left (@TransformerHandle.dispatch W)
         [PointerDown; PointerMove p; PointerUp] (h, w))
  = commit w.
Proof.
  intros Hc. split; [reflexivity |].
  cbn. rewrite Hc. reflexivity.
Qed.


End HandleDrag.

Lemma handle_click_and_short_drag_witness :
  TransformerHandle.onHandleCommit
    (TransformerHandle.create (fun (_ : Point) (n : nat) => n) S) = Some S /\
  snd (fold_left (@TransformerHandle.dispatch nat)
         [PointerDown; PointerMove (mkPoint 1 2); PointerUp]
         (TransformerHandle.create (fun (_ : Point) (n : nat) => n) S, 0%nat))
  = 1%nat.
Proof.
  split; [reflexivity |].
  destruct (@handle_click_and_short_drag nat S
              (TransformerHandle.create (fun (_ : Point) (n : nat) => n) S)
              (mkPoint 1 2) 0%nat eq_refl) as [_ H].
  exact H.
Defined.

(** ** A drag on the rotator *)

Lemma commitGroup_idempotent (t : Transformer) :
  commitGroup (commitGroup t) = commitGroup t.
Proof.
  unfold commitGroup.
  destruct (transientGroupTilt t && (1 <? length (group t))%nat) eqn:E;
    [| rewrite E; reflexivity].
  cbn [updateGroupBounds with_groupBounds transientGroupTilt group].
  rewrite E. reflexivity.
Qed.

Lemma commitGroup_repeated (ps : list Point) (t : Transformer) :
  fold_left (fun w (_ : Point) => commitGroup w) ps t
  = match ps with
    | [] => t
    | _ => commitGroup t
    end.
Proof.
  destruct ps as [| p ps]; [reflexivity |].
  cbn [fold_left]. generalize (commitGroup_idempotent t).
  generalize (commitGroup t) as w.
  induction ps as [| q ps IH]; intros w Hw; [reflexivity |].
  cbn [fold_left]. rewrite Hw. apply IH. exact Hw.
Qed.

Lemma commitGroup_group (t : Transformer) : group (commitGroup t) = group t.
Proof. unfold commitGroup. destruct (_ && _); reflexivity. Qed.

(** Whatever happens to a handle whose delta handler is [commitGroup] and
    that has no commit handler, the transformer is as it was or as
    [commitGroup] leaves it. *)
Lemma commit_only_handle (t : Transformer) (es : list PointerEvent)
    (h : TransformerHandle.t Transformer) (w : Transformer) :
  TransformerHandle.onHandleDelta h = Some (fun (_ : Point) t => commitGroup t) ->
  TransformerHandle.onHandleCommit h = None ->
  w = t \/ w = commitGroup t ->
  let w' := snd (fold_left (@TransformerHandle.dispatch Transformer) es (h, w)) in
  w' = t \/ w' = commitGroup t.
Proof.
  revert h w. induction es as [| e es IH]; intros h w Hd Hc Hw.
  - exact Hw.
  - cbn [fold_left].
    destruct (TransformerHandle.dispatch (h, w) e) as [h1 w1] eqn:E.
    assert (H1 : TransformerHandle.onHandleDelta h1
                 = Some (fun (_ : Point) t => commitGroup t) /\
                 TransformerHandle.onHandleCommit h1 = None /\
                 (w1 = w \/ w1 = commitGroup w)).
    { destruct h as [hd hc d g pos tgt]. cbn in Hd, Hc. subst hd hc.
      destruct e, d, g, tgt; cbn in E; inversion E; subst; cbn; auto. }
    destruct H1 as (Hd1 & Hc1 & Hw1).
    apply IH; [exact Hd1 | exact Hc1 |].
    destruct Hw1 as [-> | ->]; [exact Hw |].
    right. destruct Hw as [-> | ->];
      [reflexivity | apply commitGroup_idempotent].
Qed.

(** X27: the rotator handle as the constructor builds it never rotates
    the group.  Its delta handler is [commitGroup] and it has no commit
    handler, so whatever pointer events reach it, the transformer is left
    as it was or as [commitGroup] leaves it: the members keep their
    transforms, and without [transientGroupTilt] or with at most one
    member nothing changes at all.  A whole drag -- pointer down, a first
    move, further moves, pointer up -- leaves the transformer as one
    [commitGroup] does when there is a move after the first, and as it
    was when there is none. *)
Theorem rotator_drag_never_rotates (t : Transformer) (es : list PointerEvent)
    (p0 : Point) (ps : list Point) :
  let after es :=
    snd (fold_left (@TransformerHandle.dispatch Transformer) es
           (rotator_handle, t)) in
  (after es = t \/ after es = commitGroup t) /\
  group (after es) = group t /\
  (transientGroupTilt t = false \/ (length (group t) <= 1)%nat ->
   after es = t) /\
  after (PointerDown :: PointerMove p0 :: map PointerMove ps ++ [PointerUp])
  = match ps with
    | [] => t
    | _ => commitGroup t
    end.
Proof.
  intros after.
  assert (Hes : after es = t \/ after es = commitGroup t).
  { unfold after. apply commit_only_handle; [reflexivity | reflexivity |].
    left. reflexivity. }
  split; [exact Hes |]. split; [| split].
  - destruct Hes as [-> | ->]; [reflexivity | apply commitGroup_group].
  - intros Hidle.
    assert (Hc : commitGroup t = t).
    { unfold commitGroup. destruct Hidle as [-> | Hl]; [reflexivity |].
      apply Nat.ltb_ge in Hl. rewrite Hl, andb_false_r. reflexivity. }
    destruct Hes as [-> | ->]; [reflexivity | exact Hc].
  - unfold after. cbn [fold_left]. rewrite fold_left_app.
    replace (TransformerHandle.dispatch
               (TransformerHandle.dispatch (rotator_handle, t) PointerDown)
               (PointerMove p0))
      with (TransformerHandle.with_drag rotator_handle true true p0 true, t)
      by reflexivity.
    rewrite (@handle_drag_moves Transformer
               (fun (_ : Point) t => commitGroup t)) by reflexivity.
    cbn. apply commitGroup_repeated.
Qed.

(** ** Drawing *)

Section DrawingProperties.

Variable decomposeRotation : Matrix -> R.
Variable pad : Rectangle -> R -> Rectangle.

Lemma draw_unfold (v : View) :
  let measured :=
    match group (transformer v) with
    | [target] => calculateOrientedBounds decomposeRotation target
    | _ => calculateGroupOrientedBounds (group (transformer v))
             (rotation (groupBounds (transformer v)))
    end in
  draw decomposeRotation pad v
  = with_transformer v
      (with_groupBounds
         (with_handles (transformer v) (fst (drawHandles pad v measured)))
         (snd (drawHandles pad v measured))).
Proof. reflexivity. Qed.

(** X28: after [draw], the cached bounds have the rotation of the lone
    member when the group has exactly one member and the rotation cached
    before otherwise, and every scale handle (with [scaleEnabled]) and
    every skew handle (with [skewEnabled]) sits where these cached bounds
    put it; a handle of a disabled category stays where it was. *)
Theorem draw_places_handles (v : View) :
  let t := transformer v in
  let t' := transformer (draw decomposeRotation pad v) in
  rotation (groupBounds t')
  = match group t with
    | [target] => decomposeRotation (worldTransform target)
    | _ => rotation (groupBounds t)
    end /\
  (forall s,
     handles t' (HScale s)
     = if _scaleEnabled v then drawHandles_scale (groupBounds t') s
       else handles t (HScale s)) /\
  (forall k,
     handles t' (HSkew k)
     = if _skewEnabled v
       then drawHandles_skew (groupBounds t') (_skewX t) (_skewY t)
              (skewRadius v) k
       else handles t (HSkew k)) /\
  (_rotateEnabled v = false ->
   handles t' (HRotate rotator) = handles t (HRotate rotator)) /\
  group t' = group t /\ _skewX t' = _skewX t /\ _skewY t' = _skewY t.
Proof.
  intros t t'. unfold t'. rewrite draw_unfold. cbv zeta. fold t.
  cbn [with_transformer transformer with_groupBounds with_handles groupBounds
       handles group _skewX _skewY].
  unfold drawHandles. cbn [fst snd]. fold t.
  split.
  { destruct (_rotateEnabled v); destruct (group t) as [| d [| d' g]];
      reflexivity. }
  repeat split.
  intros H. rewrite H. reflexivity.
Qed.


End DrawingProperties.
